(** * A shallow embedding of the gRPC fan-out proxy

    The development follows the Go sources:
    - [main.go]               the sample [Director];
    - [proxy/serverstream.go] the [ServerStreamWrapper] and its two mutexes;
    - the proxy handler       [handler], [forwardServerToClients] and
                              [forwardClientsToServerUnary].

    Network peers are scripted: a stream is a record that says what each
    of its operations returns.  Goroutines are interleaved by an explicit
    schedule, and the theorems quantify over all schedules. *)

From Stdlib Require Import String List Arith Lia Bool Permutation.
From Stdlib.Strings Require Import Byte.
From Stdlib Require Import DecimalString.
Import ListNotations.
Open Scope string_scope.
Open Scope list_scope.

(** ** Errors, payloads, metadata *)

(** [codes.Code], an unsigned number: the two codes the proxy names,
    and any code by its number. *)
Inductive code := Internal | Unimplemented | OtherCode (n : nat).

Definition code_number (c : code) : nat :=
  match c with
  | Internal => 13
  | Unimplemented => 12
  | OtherCode n => n
  end.

(** A non-nil Go [error]: the sentinel [io.EOF], a gRPC status built by
    [grpc.Errorf], or any other error. *)
Inductive err :=
| io_EOF
| Status (c : code) (msg : string)
| OtherErr (msg : string).

(** The Go interface type [error]; [None] is [nil]. *)
Definition error := option err.

(** [err == io.EOF] *)
Definition is_EOF (e : err) : bool :=
  match e with io_EOF => true | _ => false end.

(** [c2sErr != io.EOF] on a possibly nil [error]. *)
Definition neq_EOF (e : error) : bool :=
  match e with Some io_EOF => false | _ => true end.

(** [Code.String()]: the name of a code of the gRPC table, and
    [Code(n)] for a number outside it. *)
Definition code_name (c : code) : string :=
  match code_number c with
  | 0 => "OK"
  | 1 => "Canceled"
  | 2 => "Unknown"
  | 3 => "InvalidArgument"
  | 4 => "DeadlineExceeded"
  | 5 => "NotFound"
  | 6 => "AlreadyExists"
  | 7 => "PermissionDenied"
  | 8 => "ResourceExhausted"
  | 9 => "FailedPrecondition"
  | 10 => "Aborted"
  | 11 => "OutOfRange"
  | 12 => "Unimplemented"
  | 13 => "Internal"
  | 14 => "Unavailable"
  | 15 => "DataLoss"
  | 16 => "Unauthenticated"
  | n => ("Code(" ++ NilEmpty.string_of_uint (Nat.to_uint n) ++ ")")%string
  end.

(** The [%v] rendering of an [error]: [<nil>] for nil, and otherwise
    what its [Error()] returns, which for a status error is the text
    gRPC builds from the code's name and the description, and for
    [OtherErr] the text it carries. *)
Definition fmt_v (e : error) : string :=
  match e with
  | None => "<nil>"
  | Some io_EOF => "EOF"
  | Some (Status c m) => ("rpc error: code = " ++ code_name c ++ " desc = " ++ m)%string
  | Some (OtherErr m) => m
  end.

(** [grpc.Errorf(c, format, args...)] after formatting. *)
Definition grpc_Errorf (c : code) (msg : string) : err := Status c msg.

(** Modelled from the spec: the type [frame] and its codec are not among
    the sources; the spec says the codec hands the wire bytes over
    unchanged, so a [frame] is its payload, a fresh slice per receive. *)
Definition payload := list byte.

(** [metadata.MD] *)
Definition MD := list (string * list string).

(** [md.Copy()] *)
Definition MD_Copy (md : MD) : MD := map (fun kv => (fst kv, map (fun v => v) (snd kv))) md.

(** ** [main.go]: the sample Director *)

Module Main.

(** A [context.Context] as the Director sees it: the incoming metadata
    ([metadata.FromIncomingContext]) and the outgoing metadata attached by
    [metadata.NewOutgoingContext]. *)
Record Context := {
  ctx_incoming : option MD;
  ctx_outgoing : option MD;
}.

(** A [*grpc.ClientConn]; [None] is the nil pointer. *)
Definition ClientConn := option nat.

(** What [grpc.DialContext] returns for an address. *)
Definition dialer := string -> ClientConn * error.

Record route := {
  r_ctx : option Context;
  r_conns : option (list ClientConn);   (* [None] is the nil slice *)
  r_err : error;
  r_dialled : list string;              (* addresses dialled, in order *)
}.

(** [metadata.FromIncomingContext] *)
Definition FromIncomingContext (ctx : Context) : MD * bool :=
  match ctx_incoming ctx with
  | Some md => (md, true)
  | None => ([], false)
  end.

Definition NewOutgoingContext (ctx : Context) (md : MD) : Context :=
  {| ctx_incoming := ctx_incoming ctx; ctx_outgoing := Some md |}.

(** [func Director(ctx, fullMethodName)] *)
Definition Director (dial : dialer) (ctx : Context) (fullMethodName : string) : route :=
  let '(md, ok) := FromIncomingContext ctx in
  let outCtx := NewOutgoingContext ctx (MD_Copy md) in
  if ok then
    let '(conn1, err1) := dial ":8051" in
    let '(conn2, err2) := dial ":8052" in
    let err := match err1 with Some _ => err1 | None => err2 end in
    {| r_ctx := Some outCtx; r_conns := Some [conn1; conn2]; r_err := err;
       r_dialled := [":8051"; ":8052"] |}
  else
    {| r_ctx := None; r_conns := None;
       r_err := Some (grpc_Errorf Unimplemented "Unknown method");
       r_dialled := [] |}.

End Main.

(** ** The streams the handler talks to *)

(** A backend [grpc.ClientStream], scripted.  [cs_frames] are the frames
    its [RecvMsg] yields, then [RecvMsg] returns [cs_end].  [cs_send k] is
    the result of [SendMsg] of the [k]-th downstream frame. *)
Record ClientStream := {
  cs_frames : list payload;
  cs_end : err;
  cs_header : MD * error;
  cs_trailer : MD;
  cs_send : nat -> error;
}.

(** The inbound [grpc.ServerStream], scripted. *)
Record ServerStream := {
  ss_method : option string;      (* [grpc.MethodFromServerStream] *)
  ss_context : Main.Context;
  ss_frames : list payload;       (* what the caller sends *)
  ss_end : err;                   (* then [RecvMsg] returns this *)
  ss_SetHeader : MD -> error;
  ss_SendMsg : payload -> error;
}.

(** What the program does to the outside, in order. *)
Inductive event :=
| EvNewClientStream (i : nat)                (* [grpc.NewClientStream] on conn [i] *)
| EvCancel                                   (* [clientCancel()] *)
| EvBackendSend (i : nat) (p : payload) (r : error)  (* [destinations[i].SendMsg] *)
| EvCloseSend (i : nat)
| EvSetHeader (i : nat) (md : MD)            (* follower [i]: [dst.SetHeader] *)
| EvSetTrailer (i : nat) (md : MD)           (* follower [i]: [dst.SetTrailer] *)
| EvPush (i : nat) (p : payload)             (* follower [i]: [payloadCh <- p] *)
| EvDownSend (p : payload)                   (* [dst.SendMsg] of the merged frame *)
| EvLog (i : nat)                            (* [log.Printf] *)
| EvS2CErr (e : error)                       (* a value put on [s2cErrChan] *)
| EvC2SErr (e : error)                       (* a value put on [c2sErrChan] *)
| EvClose (ch : string)                      (* [close] of a channel *)
| EvPanic.                                   (* the goroutine panics *)

(** ** The broadcast pipeline: [forwardServerToClients] *)

(** The inner loop [for i := range destinations]: frame number [k] is
    sent to the destinations from index [i] on; a failed [SendMsg] is
    logged and [break]s out of the loop. *)
Fixpoint send_all (k : nat) (p : payload) (i : nat) (destinations : list ClientStream)
  : list event :=
  match destinations with
  | [] => []
  | d :: rest =>
      match cs_send d k with
      | Some e => [EvBackendSend i p (Some e); EvLog i]
      | None => EvBackendSend i p None :: send_all k p (S i) rest
      end
  end.

(** [for i := range destinations { destinations[i].CloseSend() }] *)
Definition close_all (destinations : list ClientStream) : list event :=
  map EvCloseSend (seq 0 (length destinations)).

(** The outer [for] loop over what [src.RecvMsg] returns; [k] counts the
    frames received so far.  The result is the trace and the value put
    on [ret], if any. *)
Fixpoint broadcast_loop (k : nat) (frames : list payload) (end_ : err)
    (destinations : list ClientStream) : list event * option error :=
  match frames with
  | [] =>
      if is_EOF end_ then (close_all destinations, None)
      else ([EvS2CErr (Some end_)], Some (Some end_))
  | p :: rest =>
      let '(evs, r) := broadcast_loop (S k) rest end_ destinations in
      (send_all k p 0 destinations ++ evs, r)
  end.

Definition forwardServerToClients (src : ServerStream) (destinations : list ClientStream)
  : list event * option error :=
  broadcast_loop 0 (ss_frames src) (ss_end src) destinations.

(** ** The fan-in pipeline: [forwardClientsToServerUnary] *)

(** Where a follower goroutine stands: about to call [src.RecvMsg],
    holding a payload at [payloadCh <- f.payload], or returned. *)
Inductive fpc := Receiving | Pushing (p : payload) | Exited.

Record follower := {
  f_src : ClientStream;
  f_rest : list payload;    (* frames [src.RecvMsg] has yet to yield *)
  f_j : nat;                (* the loop counter [j] *)
  f_pc : fpc;
}.

(** The shared state: the followers, [payloadCh] (its capacity and its
    content) and what has been done so far. *)
Record fanin := {
  fi_followers : list follower;
  fi_cap : nat;
  fi_buf : list payload;
  fi_trace : list event;
}.

(** One move of follower [i]: its new state, what it does, and the
    payload it puts on the channel.  [room] says whether the channel has
    a free slot; a follower at the channel send without room is blocked. *)
Definition follower_step (i : nat) (room : bool) (dst : ServerStream) (f : follower)
  : option (follower * list event * option payload) :=
  let src := f_src f in
  match f_pc f with
  | Exited => None
  | Pushing p =>
      if room then
        Some ({| f_src := src; f_rest := f_rest f; f_j := S (f_j f); f_pc := Receiving |},
              [EvPush i p], Some p)
      else None
  | Receiving =>
      match f_rest f with
      | [] =>
          let done := {| f_src := src; f_rest := []; f_j := f_j f; f_pc := Exited |} in
          if is_EOF (cs_end src)
          then Some (done, [EvSetTrailer i (cs_trailer src)], None)
          else Some (done, [EvLog i], None)
      | p :: rest =>
          if Nat.eqb (f_j f) 0 then
            match cs_header src with
            | (_, Some _) =>
                Some ({| f_src := src; f_rest := rest; f_j := f_j f; f_pc := Exited |},
                      [EvLog i], None)
            | (md, None) =>
                Some ({| f_src := src; f_rest := rest; f_j := f_j f; f_pc := Pushing p |},
                      EvSetHeader i md ::
                        match ss_SetHeader dst md with Some _ => [EvLog i] | None => [] end,
                      None)
            end
          else
            Some ({| f_src := src; f_rest := rest; f_j := f_j f; f_pc := Pushing p |},
                  [], None)
      end
  end.

(** [l] with its [i]-th element replaced by [x]. *)
Fixpoint upd {A} (i : nat) (x : A) (l : list A) : list A :=
  match l, i with
  | [], _ => []
  | _ :: t, 0 => x :: t
  | h :: t, S i' => h :: upd i' x t
  end.

Definition fanin_step (dst : ServerStream) (i : nat) (st : fanin) : option fanin :=
  match nth_error (fi_followers st) i with
  | None => None
  | Some f =>
      match follower_step i (Nat.ltb (length (fi_buf st)) (fi_cap st)) dst f with
      | None => None
      | Some (f', evs, push) =>
          Some {| fi_followers := upd i f' (fi_followers st);
                  fi_cap := fi_cap st;
                  fi_buf := fi_buf st ++ match push with Some p => [p] | None => [] end;
                  fi_trace := fi_trace st ++ evs |}
      end
  end.

(** The scheduler: at each tick the named follower moves if it can. *)
Fixpoint run (dst : ServerStream) (sched : list nat) (st : fanin) : fanin :=
  match sched with
  | [] => st
  | i :: sched' =>
      run dst sched' (match fanin_step dst i st with Some st' => st' | None => st end)
  end.

Definition exited (f : follower) : bool :=
  match f_pc f with Exited => true | _ => false end.

Definition all_exited (st : fanin) : bool := forallb exited (fi_followers st).

(** [payloadCh := make(chan []byte, len(sources))] and one follower per
    source, each at the top of its loop with [j = 0]. *)
Definition fanin_init (sources : list ClientStream) : fanin :=
  {| fi_followers :=
       map (fun src => {| f_src := src; f_rest := cs_frames src; f_j := 0;
                          f_pc := Receiving |}) sources;
     fi_cap := length sources;
     fi_buf := [];
     fi_trace := [] |}.

(** [for b := range payloadCh { merged = append(merged, b...) }] *)
Definition merge_payloads (buf : list payload) : payload := concat buf.

(** The coordinator goroutine: once [wg.Wait()] returns it closes the
    channel, drains it and sends the merged frame; the result of that
    [SendMsg] goes on [ret].  Before that it does nothing. *)
Definition coordinator (dst : ServerStream) (st : fanin) : list event * option error :=
  if all_exited st then
    let merged := merge_payloads (fi_buf st) in
    let r := ss_SendMsg dst merged in
    ([EvClose "payloadCh"; EvDownSend merged; EvC2SErr r], Some r)
  else ([], None).

Definition forwardClientsToServerUnary (sources : list ClientStream) (dst : ServerStream)
    (sched : list nat) : list event * option error :=
  let st := run dst sched (fanin_init sources) in
  let '(evs, r) := coordinator dst st in
  (fi_trace st ++ evs, r).

(** ** The handler *)

(** Which completion channel the [select] reads when both are ready. *)
Inductive arrival := s2cFirst | c2sFirst.

(** The [select] over the two channels: [None] when neither ever holds
    a value. *)
Definition select_ (pick : arrival) (s2c c2s : option error) : option (error + error) :=
  match s2c, c2s with
  | None, None => None
  | Some e, None => Some (inl e)
  | None, Some e => Some (inr e)
  | Some e1, Some e2 =>
      match pick with s2cFirst => Some (inl e1) | c2sFirst => Some (inr e2) end
  end.

(** [grpc.NewClientStream] on the [i]-th connection. *)
Definition opener := nat -> Main.ClientConn -> ClientStream + err.

(** The loop that fills [clientStreams]; the first failure returns. *)
Fixpoint open_streams (newStream : opener) (i : nat) (conns : list Main.ClientConn)
  : (list ClientStream + err) * list event :=
  match conns with
  | [] => (inl [], [])
  | c :: rest =>
      match newStream i c with
      | inr e => (inr e, [EvNewClientStream i])
      | inl s =>
          let '(r, evs) := open_streams newStream (S i) rest in
          (match r with inl ss => inl (s :: ss) | inr e => inr e end,
           EvNewClientStream i :: evs)
      end
  end.

(** What a call comes to: [o_ret] is the handler's return value ([None]
    when it never returns: it blocks in the [select] for ever, or it
    panics, and then its trace ends with [EvPanic]; [Some None] is a nil
    error, success); [o_trace] lists what was done: the set-up, then each
    pipeline's actions in that pipeline's order, then the handler's. *)
Record outcome := {
  o_ret : option error;
  o_trace : list event;
}.

Definition StreamDirector := Main.Context -> string -> Main.route.

(** The [select] at the end of [handler] with its two cases: the
    handler's return value and what it does before returning. *)
Definition draining (pick : arrival) (s2c c2s : option error) : option error * list event :=
  match select_ pick s2c c2s with
  | None => (None, [])
  | Some (inl s2cErr) =>
      (Some (Some (grpc_Errorf Internal ("failed proxying s2c: " ++ fmt_v s2cErr)%string)),
       [EvCancel])
  | Some (inr c2sErr) =>
      (Some (if neq_EOF c2sErr then c2sErr else None), [])
  end.

Definition handler (director : StreamDirector) (newStream : opener)
    (sched : list nat) (pick : arrival) (serverStream : ServerStream) : outcome :=
  match ss_method serverStream with
  | None =>
      {| o_ret := Some (Some (grpc_Errorf Internal "lowLevelServerStream not exists in context"));
         o_trace := [] |}
  | Some fullMethodName =>
      let r := director (ss_context serverStream) fullMethodName in
      match Main.r_err r with
      | Some e => {| o_ret := Some (Some e); o_trace := [] |}
      | None =>
          match Main.r_ctx r with
          | None =>
              (* [context.WithCancel] panics on a nil parent *)
              {| o_ret := None; o_trace := [EvPanic] |}
          | Some outgoingCtx =>
              let backendConns :=
                match Main.r_conns r with Some l => l | None => [] end in
              match open_streams newStream 0 backendConns with
              | (inr e, evs) => {| o_ret := Some (Some e); o_trace := evs |}
              | (inl clientStreams, evs) =>
                  let '(ev1, s2c) := forwardServerToClients serverStream clientStreams in
                  let '(ev2, c2s) :=
                    forwardClientsToServerUnary clientStreams serverStream sched in
                  let '(ret, ev3) := draining pick s2c c2s in
                  {| o_ret := ret; o_trace := evs ++ ev1 ++ ev2 ++ ev3 |}
              end
          end
      end
  end.

(** ** Reading traces *)

(** The payloads backend [i] was successfully sent, in order. *)
Fixpoint received_by (i : nat) (tr : list event) : list payload :=
  match tr with
  | [] => []
  | EvBackendSend i' p None :: tr' =>
      if Nat.eqb i i' then p :: received_by i tr' else received_by i tr'
  | _ :: tr' => received_by i tr'
  end.

Definition is_s2c_value (ev : event) : bool :=
  match ev with EvS2CErr _ => true | _ => false end.

Definition is_c2s_value (ev : event) : bool :=
  match ev with EvC2SErr _ => true | _ => false end.

Definition is_down_send (ev : event) : bool :=
  match ev with EvDownSend _ => true | _ => false end.

Definition is_open (ev : event) : bool :=
  match ev with EvNewClientStream _ => true | _ => false end.

(** The number of events of a kind in a trace. *)
Definition count (k : event -> bool) (tr : list event) : nat := length (filter k tr).

(** [close(ch)] of one of the two completion channels. *)
Definition closes_errchan (ev : event) : bool :=
  match ev with
  | EvClose ch => String.eqb ch "s2cErrChan" || String.eqb ch "c2sErrChan"
  | _ => false
  end.

(** [Merge ls r]: [r] is made of the elements of the lists [ls], each
    exactly once, those of one list in that list's order. *)
Inductive Merge {A : Type} : list (list A) -> list A -> Prop :=
| Merge_nil n : Merge (repeat [] n) []
| Merge_snoc ls i l x r :
    nth_error ls i = Some l -> Merge ls r -> Merge (upd i (l ++ [x]) ls) (r ++ [x]).

(** What follower [f] has put on the channel so far. *)
Definition delivered (f : follower) : list payload :=
  firstn (f_j f) (cs_frames (f_src f)).

(** How many moves a follower has left at most. *)
Definition fuel_of (f : follower) : nat :=
  match f_pc f with
  | Exited => 0
  | Receiving => 2 * length (f_rest f) + 1
  | Pushing _ => 2 * length (f_rest f) + 2
  end.

Definition fuel (st : fanin) : nat := list_sum (map fuel_of (fi_followers st)).

(** A successful [SendMsg] of [p] to backend [j]. *)
Definition sent_ok (p : payload) (j : nat) : event := EvBackendSend j p None.

(** The events a follower goroutine produces. *)
Definition follower_event (ev : event) : bool :=
  match ev with
  | EvSetHeader _ _ | EvSetTrailer _ _ | EvPush _ _ | EvLog _ => true
  | _ => false
  end.

(** The events the broadcast goroutine produces before it puts a value
    on its channel. *)
Definition broadcast_event (ev : event) : bool :=
  match ev with
  | EvBackendSend _ _ _ | EvLog _ | EvCloseSend _ => true
  | _ => false
  end.

(** ** Invariants of the fan-in pipeline *)

(** A follower is where its counter says: [j] frames are on the
    channel, the rest is still to come; a follower that has returned with
    a readable header has delivered all its frames. *)
Definition follower_ok (f : follower) : Prop :=
  let frames := cs_frames (f_src f) in
  f_j f <= length frames /\
  match f_pc f with
  | Receiving => f_rest f = skipn (f_j f) frames
  | Pushing p => p :: f_rest f = skipn (f_j f) frames
  | Exited => snd (cs_header (f_src f)) = None -> f_j f = length frames
  end.

Definition total_frames (sources : list ClientStream) : nat :=
  length (concat (map cs_frames sources)).

Definition fanin_ok (sources : list ClientStream) (st : fanin) : Prop :=
  map f_src (fi_followers st) = sources /\
  fi_cap st = length sources /\
  Forall follower_ok (fi_followers st) /\
  length (fi_buf st) = list_sum (map f_j (fi_followers st)) /\
  Merge (map delivered (fi_followers st)) (fi_buf st).

(** Every push was preceded by the follower's header. *)
Definition headers_first (sources : list ClientStream) (st : fanin) : Prop :=
  map f_src (fi_followers st) = sources /\
  (forall i f, nth_error (fi_followers st) i = Some f ->
     (0 < f_j f \/ exists p, f_pc f = Pushing p) ->
     exists m, nth_error (fi_trace st) m = Some (EvSetHeader i (fst (cs_header (f_src f))))) /\
  (forall n i p, nth_error (fi_trace st) n = Some (EvPush i p) ->
     exists m src, m < n /\ nth_error sources i = Some src /\
                   nth_error (fi_trace st) m = Some (EvSetHeader i (fst (cs_header src)))).

(** ** Sample streams for the examples below *)

Module Sample.

Definition ctx : Main.Context :=
  {| Main.ctx_incoming := Some [("k", ["v"])]; Main.ctx_outgoing := None |}.

(** A caller that sends [frames] and half-closes; every downstream
    operation succeeds. *)
Definition caller (frames : list payload) (end_ : err) : ServerStream :=
  {| ss_method := Some "/machine.Machine/Version";
     ss_context := ctx;
     ss_frames := frames;
     ss_end := end_;
     ss_SetHeader := fun _ => None;
     ss_SendMsg := fun _ => None |}.

(** A backend that replies [frames], then [io.EOF], and accepts every
    frame sent to it. *)
Definition backend (frames : list payload) : ClientStream :=
  {| cs_frames := frames; cs_end := io_EOF; cs_header := ([("h", ["1"])], None);
     cs_trailer := [("t", ["2"])]; cs_send := fun _ => None |}.

(** The same backend with every [SendMsg] failing. *)
Definition deaf_backend (frames : list payload) : ClientStream :=
  {| cs_frames := frames; cs_end := io_EOF; cs_header := ([("h", ["1"])], None);
     cs_trailer := [("t", ["2"])]; cs_send := fun _ => Some (OtherErr "broken pipe") |}.

(** The same backend with [Header()] failing. *)
Definition headless_backend (frames : list payload) : ClientStream :=
  {| cs_frames := frames; cs_end := io_EOF; cs_header := ([], Some (OtherErr "no header"));
     cs_trailer := []; cs_send := fun _ => None |}.

(** A director that routes to the given connections without error. *)
Definition route_to (conns : list Main.ClientConn) : StreamDirector :=
  fun c _ => {| Main.r_ctx := Some c; Main.r_conns := Some conns; Main.r_err := None;
                Main.r_dialled := [] |}.

(** A director that finds no route. *)
Definition no_route : StreamDirector :=
  fun _ _ => {| Main.r_ctx := None; Main.r_conns := None;
                Main.r_err := Some (grpc_Errorf Unimplemented "Unknown method");
                Main.r_dialled := [] |}.

Definition dial_second_fails : Main.dialer :=
  fun a => if String.eqb a ":8052" then (None, Some (OtherErr "refused"))
           else (Some 1, None).

Definition open_all (ss : list ClientStream) : opener :=
  fun i _ => match nth_error ss i with
             | Some s => inl s
             | None => inr (OtherErr "unavailable")
             end.

Definition A : payload := ["A"%byte].
Definition B : payload := ["B"%byte].

End Sample.

(** ** [proxy/serverstream.go]: the [ServerStreamWrapper] *)

Module Wrapper.

Inductive method := SetHeader | SendHeader | SetTrailer | Context | SendMsg | RecvMsg.

Inductive mutex := sendMu | recvMu.

Definition mutex_eqb (a b : mutex) : bool :=
  match a, b with
  | sendMu, sendMu => true
  | recvMu, recvMu => true
  | _, _ => false
  end.

(** The mutex each method locks on entry and unlocks by [defer];
    [Context] locks none. *)
Definition guard (m : method) : option mutex :=
  match m with
  | SetHeader => Some sendMu
  | SendHeader => Some sendMu
  | SetTrailer => Some sendMu
  | Context => None
  | SendMsg => Some sendMu
  | RecvMsg => Some recvMu
  end.

(** Where a goroutine stands inside a wrapper method: at [Lock()],
    past it and about to call the wrapped stream, inside that call, back
    from it with the deferred [Unlock()] still to run, or returned. *)
Inductive tpc := AtLock | Holding | InCall | Returned | Done.

Record thread := { t_method : method; t_pc : tpc }.

Inductive wevent :=
| Enter (t : nat) (m : method)     (* the wrapped stream's method starts *)
| Leave (t : nat) (m : method).    (* and returns *)

Record wstate := {
  w_threads : list thread;
  w_sendMu : bool;       (* locked? *)
  w_recvMu : bool;
  w_trace : list wevent;
}.

Definition locked (st : wstate) (mu : mutex) : bool :=
  match mu with sendMu => w_sendMu st | recvMu => w_recvMu st end.

Definition set_lock (st : wstate) (mu : mutex) (b : bool) (ths : list thread)
    (evs : list wevent) : wstate :=
  {| w_threads := ths;
     w_sendMu := match mu with sendMu => b | recvMu => w_sendMu st end;
     w_recvMu := match mu with recvMu => b | sendMu => w_recvMu st end;
     w_trace := w_trace st ++ evs |}.

Definition keep_locks (st : wstate) (ths : list thread) (evs : list wevent) : wstate :=
  {| w_threads := ths; w_sendMu := w_sendMu st; w_recvMu := w_recvMu st;
     w_trace := w_trace st ++ evs |}.

(** One move of goroutine [t]; [None] when it is blocked at [Lock()] or
    has returned. *)
Definition wstep (t : nat) (st : wstate) : option wstate :=
  match nth_error (w_threads st) t with
  | None => None
  | Some th =>
      let m := t_method th in
      let at_ pc := upd t {| t_method := m; t_pc := pc |} (w_threads st) in
      match t_pc th with
      | AtLock =>
          match guard m with
          | None => Some (keep_locks st (at_ Holding) [])
          | Some mu =>
              if locked st mu then None
              else Some (set_lock st mu true (at_ Holding) [])
          end
      | Holding => Some (keep_locks st (at_ InCall) [Enter t m])
      | InCall => Some (keep_locks st (at_ Returned) [Leave t m])
      | Returned =>
          match guard m with
          | None => Some (keep_locks st (at_ Done) [])
          | Some mu => Some (set_lock st mu false (at_ Done) [])
          end
      | Done => None
      end
  end.

Fixpoint wrun (sched : list nat) (st : wstate) : wstate :=
  match sched with
  | [] => st
  | t :: sched' => wrun sched' (match wstep t st with Some st' => st' | None => st end)
  end.

(** Goroutines that each call one method of a fresh wrapper. *)
Definition winit (calls : list method) : wstate :=
  {| w_threads := map (fun m => {| t_method := m; t_pc := AtLock |}) calls;
     w_sendMu := false; w_recvMu := false; w_trace := [] |}.

(** The goroutine is between [Lock()] and [Unlock()] of [mu]. *)
Definition in_section (mu : mutex) (th : thread) : bool :=
  match guard (t_method th) with
  | Some mu' =>
      mutex_eqb mu mu' &&
      match t_pc th with Holding | InCall | Returned => true | _ => false end
  | None => false
  end.


Fixpoint occupancy (mu : mutex) (ths : list thread) : nat :=
  match ths with
  | [] => 0
  | th :: rest => (if in_section mu th then 1 else 0) + occupancy mu rest
  end.

(** Each mutex is locked exactly while one goroutine is in its section. *)
Definition balanced (st : wstate) : Prop :=
  forall mu, occupancy mu (w_threads st) = if locked st mu then 1 else 0.

(** The moves a goroutine has left. *)
Definition moves_left (th : thread) : nat :=
  match t_pc th with
  | AtLock => 4 | Holding => 3 | InCall => 2 | Returned => 1 | Done => 0
  end.

Definition is_done (th : thread) : bool :=
  match t_pc th with Done => true | _ => false end.

(** Past [Lock()] and not yet returned. *)
Definition busy (th : thread) : bool :=
  match t_pc th with Holding | InCall | Returned => true | _ => false end.

Definition all_done (st : wstate) : bool := forallb is_done (w_threads st).

Definition wfuel (st : wstate) : nat := list_sum (map moves_left (w_threads st)).

End Wrapper.

(** ** Who is sent what by the broadcast *)

Definition send_accepted (d : ClientStream) (k : nat) : bool :=
  match cs_send d k with None => true | Some _ => false end.

(** Frame [k] gets as far as backend [i] and is accepted there: no
    backend up to [i] fails its [SendMsg]. *)
Definition accepted_upto (destinations : list ClientStream) (i k : nat) : bool :=
  forallb (fun d => send_accepted d k) (firstn (S i) destinations).

(** The events of the inner loop of the broadcast. *)
Definition send_event (ev : event) : bool :=
  match ev with
  | EvBackendSend _ _ _ | EvLog _ => true
  | _ => false
  end.

(** The numbered frames a caller sends. *)
Definition numbered (k : nat) (frames : list payload) : list (nat * payload) :=
  combine (seq k (length frames)) frames.

(** ** The streaming fan-in: [forwardClientsToServer] *)

Module Streaming.

(** What the streaming followers and their coordinator do. *)
Inductive sevent :=
| SSetHeader (i : nat) (md : MD)              (* follower [i]: [dst.SetHeader] *)
| SSetTrailer (i : nat) (md : MD)             (* follower [i]: [dst.SetTrailer] *)
| SMoving (i : nat) (p : payload)             (* the log line before the send *)
| SSend (i : nat) (p : payload) (r : error)   (* follower [i]: [dst.SendMsg(f)] *)
| SLog (i : nat)                              (* an error is logged *)
| SRet (e : error).                           (* a value put on [ret] *)

Record state := {
  s_followers : list follower;
  s_trace : list sevent;
}.

(** One move of follower [i].  Here [Pushing p] means that the follower
    holds [p] and is at [dst.SendMsg(f)]; a failed send is logged and
    ends the follower. *)
Definition follower_step (i : nat) (dst : ServerStream) (f : follower)
  : option (follower * list sevent) :=
  let src := f_src f in
  match f_pc f with
  | Exited => None
  | Pushing p =>
      match ss_SendMsg dst p with
      | Some e =>
          Some ({| f_src := src; f_rest := f_rest f; f_j := f_j f; f_pc := Exited |},
                [SSend i p (Some e); SLog i])
      | None =>
          Some ({| f_src := src; f_rest := f_rest f; f_j := S (f_j f); f_pc := Receiving |},
                [SSend i p None])
      end
  | Receiving =>
      match f_rest f with
      | [] =>
          let done := {| f_src := src; f_rest := []; f_j := f_j f; f_pc := Exited |} in
          if is_EOF (cs_end src)
          then Some (done, [SSetTrailer i (cs_trailer src)])
          else Some (done, [SLog i])
      | p :: rest =>
          if Nat.eqb (f_j f) 0 then
            match cs_header src with
            | (_, Some _) =>
                Some ({| f_src := src; f_rest := rest; f_j := f_j f; f_pc := Exited |},
                      [SLog i])
            | (md, None) =>
                Some ({| f_src := src; f_rest := rest; f_j := f_j f; f_pc := Pushing p |},
                      SSetHeader i md ::
                        match ss_SetHeader dst md with Some _ => [SLog i] | None => [] end
                        ++ [SMoving i p])
            end
          else
            Some ({| f_src := src; f_rest := rest; f_j := f_j f; f_pc := Pushing p |},
                  [SMoving i p])
      end
  end.

Definition step (dst : ServerStream) (i : nat) (st : state) : option state :=
  match nth_error (s_followers st) i with
  | None => None
  | Some f =>
      match follower_step i dst f with
      | None => None
      | Some (f', evs) =>
          Some {| s_followers := upd i f' (s_followers st);
                  s_trace := s_trace st ++ evs |}
      end
  end.

Fixpoint run (dst : ServerStream) (sched : list nat) (st : state) : state :=
  match sched with
  | [] => st
  | i :: sched' => run dst sched' (match step dst i st with Some st' => st' | None => st end)
  end.

Definition init (sources : list ClientStream) : state :=
  {| s_followers :=
       map (fun src => {| f_src := src; f_rest := cs_frames src; f_j := 0;
                          f_pc := Receiving |}) sources;
     s_trace := [] |}.

Definition all_exited (st : state) : bool := forallb exited (s_followers st).

(** The coordinator goroutine: [wg.Wait()], then [ret <- nil]. *)
Definition coordinator (st : state) : list sevent * option error :=
  if all_exited st then ([SRet None], Some None) else ([], None).

Definition forwardClientsToServer (sources : list ClientStream) (dst : ServerStream)
    (sched : list nat) : list sevent * option error :=
  let st := run dst sched (init sources) in
  let '(evs, r) := coordinator st in
  (s_trace st ++ evs, r).

(** The frames of backend [i] that were sent downstream with success. *)
Fixpoint sent_down (i : nat) (tr : list sevent) : list payload :=
  match tr with
  | [] => []
  | SSend i' p None :: tr' =>
      if Nat.eqb i i' then p :: sent_down i tr' else sent_down i tr'
  | _ :: tr' => sent_down i tr'
  end.

(** A follower is where its counter says; one that has returned after
    reading its header, with every downstream send accepted, has
    forwarded all its frames. *)
Definition follower_ok (dst : ServerStream) (f : follower) : Prop :=
  let frames := cs_frames (f_src f) in
  f_j f <= length frames /\
  match f_pc f with
  | Receiving => f_rest f = skipn (f_j f) frames
  | Pushing p => p :: f_rest f = skipn (f_j f) frames
  | Exited =>
      snd (cs_header (f_src f)) = None ->
      (forall p, ss_SendMsg dst p = None) ->
      f_j f = length frames
  end.

Definition state_ok (sources : list ClientStream) (dst : ServerStream) (st : state) : Prop :=
  map f_src (s_followers st) = sources /\
  Forall (follower_ok dst) (s_followers st) /\
  (forall i f, nth_error (s_followers st) i = Some f ->
               sent_down i (s_trace st) = firstn (f_j f) (cs_frames (f_src f))).

End Streaming.

(** * The sample Director *)

Section DirectorFacts.

Variable dial : Main.dialer.
Variable name : string.

Lemma Director_with_metadata (md : MD) (out : option MD) :
  Main.Director dial {| Main.ctx_incoming := Some md; Main.ctx_outgoing := out |} name =
  {| Main.r_ctx := Some {| Main.ctx_incoming := Some md;
                           Main.ctx_outgoing := Some (MD_Copy md) |};
     Main.r_conns := Some [fst (dial ":8051"); fst (dial ":8052")];
     Main.r_err := match snd (dial ":8051") with
                   | Some e => Some e
                   | None => snd (dial ":8052")
                   end;
     Main.r_dialled := [":8051"; ":8052"] |}.
Proof.
  unfold Main.Director; simpl.
  destruct (dial ":8051") as [c1 e1], (dial ":8052") as [c2 e2]; simpl.
  destruct e1; reflexivity.
Qed.

Lemma Director_without_metadata (out : option MD) :
  Main.Director dial {| Main.ctx_incoming := None; Main.ctx_outgoing := out |} name =
  {| Main.r_ctx := None; Main.r_conns := None;
     Main.r_err := Some (Status Unimplemented "Unknown method");
     Main.r_dialled := [] |}.
Proof. reflexivity. Qed.

End DirectorFacts.

(** C10. With incoming metadata the sample Director dials both fixed
    endpoints, returns both handles, and its error is the first non-nil
    dial error: it is non-nil exactly when one of the dials failed, and
    the handle list comes with it.  Without incoming metadata it returns
    a nil context, a nil list and the Unimplemented status. *)
Theorem Director_dials_both_and_reports_first_error :
  forall (dial : Main.dialer) (name : string) (md : MD) (out : option MD),
    let r := Main.Director dial
               {| Main.ctx_incoming := Some md; Main.ctx_outgoing := out |} name in
    let r0 := Main.Director dial
                {| Main.ctx_incoming := None; Main.ctx_outgoing := out |} name in
    Main.r_dialled r = [":8051"; ":8052"] /\
    Main.r_conns r = Some [fst (dial ":8051"); fst (dial ":8052")] /\
    (Main.r_err r <> None <->
       snd (dial ":8051") <> None \/ snd (dial ":8052") <> None) /\
    Main.r_err r = match snd (dial ":8051") with
                   | Some e => Some e
                   | None => snd (dial ":8052")
                   end /\
    Main.r_ctx r0 = None /\ Main.r_conns r0 = None /\
    Main.r_err r0 = Some (Status Unimplemented "Unknown method") /\
    Main.r_dialled r0 = [].
Proof.
  intros dial name md out r r0.
  subst r r0. rewrite Director_with_metadata, Director_without_metadata. simpl.
  repeat split; try reflexivity.
  - destruct (snd (dial ":8051")); intros H; [left; discriminate | right; exact H].
  - intros [H | H]; destruct (snd (dial ":8051")); try discriminate;
      try exact H; exfalso; apply H; reflexivity.
Qed.

Example Director_second_dial_fails :
  Main.Director Sample.dial_second_fails Sample.ctx "/machine.Machine/Version" =
  {| Main.r_ctx := Some {| Main.ctx_incoming := Some [("k", ["v"])];
                           Main.ctx_outgoing := Some [("k", ["v"])] |};
     Main.r_conns := Some [Some 1; None];
     Main.r_err := Some (OtherErr "refused");
     Main.r_dialled := [":8051"; ":8052"] |}.
Proof. reflexivity. Qed.

(** * The handler: routing and set-up *)

Lemma open_streams_only_opens newStream conns :
  forall i, Forall (fun ev => is_open ev = true) (snd (open_streams newStream i conns)).
Proof.
  induction conns as [|c rest IH]; intros i; simpl.
  - constructor.
  - destruct (newStream i c) as [s|e]; simpl.
    + specialize (IH (S i)). destruct (open_streams newStream (S i) rest) as [r evs].
      simpl in *. constructor; [reflexivity | exact IH].
    + constructor; [reflexivity | constructor].
Qed.

(** C4. When the Director returns an error the handler returns that very
    error at once and does nothing else: no backend stream is opened and
    no frame is forwarded.  With the sample Director and no incoming
    metadata that error is the Unimplemented status. *)
Theorem handler_routing_error :
  forall director newStream sched pick serverStream name e,
    ss_method serverStream = Some name ->
    Main.r_err (director (ss_context serverStream) name) = Some e ->
    handler director newStream sched pick serverStream =
      {| o_ret := Some (Some e); o_trace := [] |} /\
    (forall dial,
        Main.ctx_incoming (ss_context serverStream) = None ->
        handler (Main.Director dial) newStream sched pick serverStream =
          {| o_ret := Some (Some (Status Unimplemented "Unknown method"));
             o_trace := [] |}).
Proof.
  intros director newStream sched pick ss name e Hm He. split.
  - unfold handler. rewrite Hm, He. reflexivity.
  - intros dial Hmd. unfold handler. rewrite Hm.
    unfold Main.Director, Main.FromIncomingContext. rewrite Hmd. reflexivity.
Qed.

Lemma handler_routing_error_witness :
  handler Sample.no_route (Sample.open_all []) [0; 1] s2cFirst
          (Sample.caller [Sample.A] io_EOF) =
    {| o_ret := Some (Some (Status Unimplemented "Unknown method")); o_trace := [] |}.
Proof.
  apply (handler_routing_error Sample.no_route (Sample.open_all []) [0; 1] s2cFirst
           (Sample.caller [Sample.A] io_EOF) "/machine.Machine/Version"
           (Status Unimplemented "Unknown method")); reflexivity.
Defined.

(** What the broadcast pipeline puts on its channel depends only on how
    the downstream receive ends. *)
Lemma broadcast_loop_value destinations end_ frames :
  forall k, snd (broadcast_loop k frames end_ destinations) =
            if is_EOF end_ then None else Some (Some end_).
Proof.
  induction frames as [|p rest IH]; intros k; simpl.
  - destruct (is_EOF end_); reflexivity.
  - specialize (IH (S k)).
    destruct (broadcast_loop (S k) rest end_ destinations) as [evs r]. exact IH.
Qed.

Lemma broadcast_loop_no_destinations end_ frames :
  forall k, broadcast_loop k frames end_ [] =
            if is_EOF end_ then ([], None) else ([EvS2CErr (Some end_)], Some (Some end_)).
Proof.
  induction frames as [|p rest IH]; intros k; simpl.
  - destruct (is_EOF end_); reflexivity.
  - rewrite IH. destruct (is_EOF end_); reflexivity.
Qed.

Lemma run_no_followers dst sched :
  run dst sched (fanin_init []) = fanin_init [].
Proof.
  induction sched as [|i sched IH]; simpl; [reflexivity|].
  unfold fanin_step at 1; simpl. destruct i; simpl; exact IH.
Qed.

Lemma fanin_no_sources dst sched :
  forwardClientsToServerUnary [] dst sched =
  ([EvClose "payloadCh"; EvDownSend []; EvC2SErr (ss_SendMsg dst [])],
   Some (ss_SendMsg dst [])).
Proof.
  unfold forwardClientsToServerUnary. rewrite run_no_followers. reflexivity.
Qed.

(** A route with a nil error and a nil context: the handler panics
    when it derives the call's context, before it opens any stream. *)
Lemma handler_nil_context_panics :
  forall director newStream sched pick serverStream name,
    ss_method serverStream = Some name ->
    Main.r_err (director (ss_context serverStream) name) = None ->
    Main.r_ctx (director (ss_context serverStream) name) = None ->
    handler director newStream sched pick serverStream =
      {| o_ret := None; o_trace := [EvPanic] |}.
Proof.
  intros director newStream sched pick ss name Hm He Hc.
  unfold handler. rewrite Hm, He, Hc. reflexivity.
Qed.

(** C5, as the code has it.  The handler has no check for an empty
    route: when the Director returns a context, no handle and a nil
    error, it opens no stream, the fan-in pipeline sends one empty frame
    downstream, and the call returns the result of that send (nil, that
    is success, when the send succeeds), unless the downstream receive
    failed and the [select] reads the broadcast channel first. *)
Theorem handler_empty_route :
  forall director newStream sched pick serverStream name,
    ss_method serverStream = Some name ->
    Main.r_err (director (ss_context serverStream) name) = None ->
    Main.r_ctx (director (ss_context serverStream) name) <> None ->
    (Main.r_conns (director (ss_context serverStream) name) = None \/
     Main.r_conns (director (ss_context serverStream) name) = Some []) ->
    let o := handler director newStream sched pick serverStream in
    let sent := ss_SendMsg serverStream [] in
    count is_open (o_trace o) = 0 /\
    In (EvDownSend []) (o_trace o) /\
    o_ret o =
      match is_EOF (ss_end serverStream), pick with
      | false, s2cFirst =>
          Some (Some (Status Internal
                        ("failed proxying s2c: " ++ fmt_v (Some (ss_end serverStream)))%string))
      | _, _ => Some (if neq_EOF sent then sent else None)
      end.
Proof.
  intros director newStream sched pick ss name Hm He Hx Hc o sent. subst o sent.
  unfold handler. rewrite Hm, He.
  destruct (Main.r_ctx (director (ss_context ss) name)) as [outgoingCtx|];
    [|exfalso; apply Hx; reflexivity].
  assert (Hn : match Main.r_conns (director (ss_context ss) name) with
               | Some l => l | None => [] end = []).
  { destruct Hc as [Hc | Hc]; rewrite Hc; reflexivity. }
  rewrite Hn. simpl open_streams. cbv iota beta.
  unfold forwardServerToClients. rewrite broadcast_loop_no_destinations.
  rewrite fanin_no_sources.
  destruct (is_EOF (ss_end ss)); destruct pick; simpl;
    repeat split; auto 6.
Qed.

Lemma handler_empty_route_witness :
  o_ret (handler (Sample.route_to []) (Sample.open_all []) [] c2sFirst
           (Sample.caller [] io_EOF)) = Some None.
Proof.
  apply (handler_empty_route (Sample.route_to []) (Sample.open_all []) [] c2sFirst
           (Sample.caller [] io_EOF) "/machine.Machine/Version");
    [reflexivity | reflexivity | discriminate | right; reflexivity].
Defined.

(** A route without handles and without error goes through: the call
    returns nil, having sent one empty reply. *)
Lemma handler_accepts_empty_route :
  Main.r_conns (Sample.route_to [] Sample.ctx "/machine.Machine/Version") = Some [] /\
  Main.r_err (Sample.route_to [] Sample.ctx "/machine.Machine/Version") = None /\
  Main.r_ctx (Sample.route_to [] Sample.ctx "/machine.Machine/Version") = Some Sample.ctx /\
  handler (Sample.route_to []) (Sample.open_all []) [] c2sFirst (Sample.caller [] io_EOF) =
    {| o_ret := Some None;
       o_trace := [EvClose "payloadCh"; EvDownSend []; EvC2SErr None] |}.
Proof. repeat split. Qed.

(** * The handler: the final [select] *)

Example fmt_v_canceled :
  fmt_v (Some (Status (OtherCode 1) "context canceled")) =
    "rpc error: code = Canceled desc = context canceled" /\
  fmt_v (Some (Status (OtherCode 42) "x")) = "rpc error: code = Code(42) desc = x" /\
  fmt_v (Some io_EOF) = "EOF" /\
  fmt_v None = "<nil>".
Proof. repeat split. Qed.

(** C6, as the code has it.  When the broadcast channel is read, the
    call's cancel function is called and the call fails with the
    Internal status that quotes the broadcast error.  When the fan-in
    channel is read, the call succeeds when the value is [io.EOF] or
    nil, and any other value is returned as it is. *)
Theorem draining_outcome :
  forall pick s2c c2s,
    (forall e, select_ pick s2c c2s = Some (inl e) ->
       draining pick s2c c2s =
         (Some (Some (Status Internal ("failed proxying s2c: " ++ fmt_v e)%string)),
          [EvCancel])) /\
    (forall e, select_ pick s2c c2s = Some (inr e) ->
       exists r, draining pick s2c c2s = (Some r, []) /\
                 (r = None <-> e = Some io_EOF \/ e = None) /\
                 (e <> Some io_EOF -> r = e)).
Proof.
  intros pick s2c c2s. split; intros e H; unfold draining; rewrite H.
  - reflexivity.
  - exists (if neq_EOF e then e else None). split; [reflexivity|].
    destruct e as [[| |]|]; simpl; (split; [split|]); intros H0;
      try reflexivity; try discriminate; auto;
      try (destruct H0; discriminate); exfalso; apply H0; reflexivity.
Qed.

(** The fan-in channel yields nil, which is not [io.EOF], and the call
    succeeds. *)
Lemma draining_nil_is_success :
  select_ c2sFirst None (Some None) = Some (inr None) /\
  (None : error) <> Some io_EOF /\
  draining c2sFirst None (Some None) = (Some None, []).
Proof. repeat split. discriminate. Qed.

Lemma draining_outcome_witness :
  draining s2cFirst (Some (Some (OtherErr "reset"))) None =
    (Some (Some (Status Internal "failed proxying s2c: reset")), [EvCancel]).
Proof.
  exact (proj1 (draining_outcome s2cFirst (Some (Some (OtherErr "reset"))) None)
               (Some (OtherErr "reset")) eq_refl).
Defined.

(** * The broadcast pipeline *)

(** While sends succeed the inner loop goes down the destinations. *)
Lemma send_all_ok k p destinations :
  forall i, Forall (fun d => cs_send d k = None) destinations ->
            send_all k p i destinations = map (sent_ok p) (seq i (length destinations)).
Proof.
  induction destinations as [|d rest IH]; intros i H; simpl; [reflexivity|].
  inversion H as [|? ? Hd Hrest]; subst. rewrite Hd, IH by assumption. reflexivity.
Qed.

(** The first failing send ends the inner loop. *)
Lemma send_all_break k p pre d post e :
  forall i, Forall (fun d' => cs_send d' k = None) pre ->
            cs_send d k = Some e ->
            send_all k p i (pre ++ d :: post) =
              map (sent_ok p) (seq i (length pre)) ++
              [EvBackendSend (i + length pre) p (Some e); EvLog (i + length pre)].
Proof.
  induction pre as [|d' pre IH]; intros i H He; simpl.
  - rewrite He, Nat.add_0_r. reflexivity.
  - inversion H as [|? ? Hd Hrest]; subst. rewrite Hd, IH by assumption.
    replace (S i + length pre) with (i + S (length pre)) by lia. reflexivity.
Qed.

Lemma open_streams_all_ok newStream conns :
  forall i0,
    (forall i c, nth_error conns i = Some c -> exists s, newStream (i0 + i) c = inl s) ->
    exists ss,
      open_streams newStream i0 conns =
        (inl ss, map EvNewClientStream (seq i0 (length conns))) /\
      length ss = length conns /\
      (forall i c, nth_error conns i = Some c ->
                   exists s, nth_error ss i = Some s /\ newStream (i0 + i) c = inl s).
Proof.
  induction conns as [|c rest IH]; intros i0 H; simpl.
  - exists []. repeat split. intros [|i] c Hc; discriminate.
  - destruct (H 0 c eq_refl) as [s Hs]. rewrite Nat.add_0_r in Hs. rewrite Hs.
    destruct (IH (S i0)) as (ss & Ho & Hlen & Hnth).
    { intros i c' Hc'. destruct (H (S i) c' Hc') as [s' Hs'].
      exists s'. rewrite <- Hs'. f_equal. lia. }
    rewrite Ho. exists (s :: ss). repeat split; [simpl; lia|].
    intros [|i] c' Hc'; simpl in *.
    + inversion Hc'; subst. exists s. rewrite Nat.add_0_r. auto.
    + destruct (Hnth i c' Hc') as (s' & Hs1 & Hs2). exists s'. split; [exact Hs1|].
      rewrite <- Hs2. f_equal. lia.
Qed.

Lemma open_streams_first_failure newStream conns :
  forall i0 k c e,
    nth_error conns k = Some c ->
    newStream (i0 + k) c = inr e ->
    (forall i c', i < k -> nth_error conns i = Some c' ->
                  exists s, newStream (i0 + i) c' = inl s) ->
    open_streams newStream i0 conns =
      (inr e, map EvNewClientStream (seq i0 (S k))).
Proof.
  induction conns as [|c0 rest IH]; intros i0 [|k] c e Hk He Hbefore; simpl in *;
    try discriminate.
  - inversion Hk; subst. rewrite Nat.add_0_r in He. rewrite He. reflexivity.
  - destruct (Hbefore 0 c0 (Nat.lt_0_succ k) eq_refl) as [s Hs].
    rewrite Nat.add_0_r in Hs. rewrite Hs.
    rewrite (IH (S i0) k c e Hk).
    + reflexivity.
    + rewrite <- He. f_equal. lia.
    + intros i c' Hi Hc'. destruct (Hbefore (S i) c' (proj1 (Nat.succ_lt_mono i k) Hi) Hc')
        as [s' Hs'].
      exists s'. rewrite <- Hs'. f_equal. lia.
Qed.

(** C3, as the code has it.  Given a route with a context, the first
    backend stream that cannot be opened aborts the call with that
    error: the handler returns it having made the opening attempts up to
    that one and nothing else, so the later connections are not tried,
    no pipeline is started and no frame is forwarded.  A failed write to
    a backend does not abort the call: the failure is logged, the frame
    is not offered to the later backends, and the broadcast pipeline
    still signals only how the downstream receive ended. *)
Theorem backend_failure_handling :
  forall director newStream sched pick serverStream name,
    ss_method serverStream = Some name ->
    Main.r_err (director (ss_context serverStream) name) = None ->
    Main.r_ctx (director (ss_context serverStream) name) <> None ->
    let backendConns :=
      match Main.r_conns (director (ss_context serverStream) name) with
      | Some l => l | None => [] end in
    (forall k c e,
        nth_error backendConns k = Some c ->
        newStream k c = inr e ->
        (forall i c', i < k -> nth_error backendConns i = Some c' ->
                      exists s, newStream i c' = inl s) ->
        handler director newStream sched pick serverStream =
          {| o_ret := Some (Some e);
             o_trace := map EvNewClientStream (seq 0 (S k)) |}) /\
    (forall k p pre d post e,
        Forall (fun d' => cs_send d' k = None) pre ->
        cs_send d k = Some e ->
        send_all k p 0 (pre ++ d :: post) =
          map (sent_ok p) (seq 0 (length pre)) ++
          [EvBackendSend (length pre) p (Some e); EvLog (length pre)]) /\
    (forall destinations,
        snd (forwardServerToClients serverStream destinations) =
          if is_EOF (ss_end serverStream) then None
          else Some (Some (ss_end serverStream))).
Proof.
  intros director newStream sched pick ss name Hm He Hx conns. split; [|split].
  - intros k c e Hk Hfail Hbefore.
    unfold handler. rewrite Hm, He.
    destruct (Main.r_ctx (director (ss_context ss) name)) as [outgoingCtx|];
      [|exfalso; apply Hx; reflexivity].
    fold conns.
    rewrite (open_streams_first_failure newStream conns 0 k c e Hk Hfail Hbefore).
    reflexivity.
  - intros k p pre d post e Hpre Hd.
    apply (send_all_break k p pre d post e 0 Hpre Hd).
  - intros destinations. apply broadcast_loop_value.
Qed.

Lemma backend_failure_handling_witness :
  handler (Sample.route_to [Some 0; Some 1; Some 2])
          (Sample.open_all [Sample.backend [Sample.A]])
          [0; 0; 0] c2sFirst (Sample.caller [Sample.A] io_EOF) =
    {| o_ret := Some (Some (OtherErr "unavailable"));
       o_trace := [EvNewClientStream 0; EvNewClientStream 1] |}.
Proof.
  refine (proj1 (backend_failure_handling
                   (Sample.route_to [Some 0; Some 1; Some 2])
                   (Sample.open_all [Sample.backend [Sample.A]])
                   [0; 0; 0] c2sFirst (Sample.caller [Sample.A] io_EOF)
                   "/machine.Machine/Version" eq_refl eq_refl _)
                1 (Some 1) (OtherErr "unavailable") eq_refl eq_refl _).
  - discriminate.
  - intros i c' Hi Hc'. assert (i = 0) by lia. subst i. eexists. reflexivity.
Defined.

(** Two calls in which a backend fails.  In the first the second stream
    cannot be opened: the call fails, and the cancel function is not
    called for the stream already open.  In the second the write to
    backend 0 fails: the call is not aborted, it succeeds, nothing is
    cancelled, and backend 1 is never offered the frame. *)
Lemma backend_failure_without_cancel :
  handler (Sample.route_to [Some 0; Some 1]) (Sample.open_all [Sample.backend [Sample.A]])
          [0; 0; 0] c2sFirst (Sample.caller [Sample.A] io_EOF) =
    {| o_ret := Some (Some (OtherErr "unavailable"));
       o_trace := [EvNewClientStream 0; EvNewClientStream 1] |} /\
  handler (Sample.route_to [Some 0; Some 1])
          (Sample.open_all [Sample.deaf_backend [Sample.A]; Sample.backend [Sample.B]])
          [0; 0; 0; 1; 1; 1] c2sFirst (Sample.caller [Sample.A] io_EOF) =
    {| o_ret := Some None;
       o_trace :=
         [EvNewClientStream 0; EvNewClientStream 1;
          EvBackendSend 0 Sample.A (Some (OtherErr "broken pipe"));
          EvLog 0; EvCloseSend 0; EvCloseSend 1;
          EvSetHeader 0 [("h", ["1"])]; EvPush 0 Sample.A;
          EvSetTrailer 0 [("t", ["2"])]; EvSetHeader 1 [("h", ["1"])];
          EvPush 1 Sample.B; EvSetTrailer 1 [("t", ["2"])];
          EvClose "payloadCh"; EvDownSend (Sample.A ++ Sample.B);
          EvC2SErr None] |}.
Proof. split; reflexivity. Qed.

Lemma received_by_app i tr1 tr2 :
  received_by i (tr1 ++ tr2) = received_by i tr1 ++ received_by i tr2.
Proof.
  induction tr1 as [|ev tr1 IH]; simpl; [reflexivity|].
  destruct ev; try exact IH.
  destruct r; [exact IH|]. destruct (Nat.eqb i i0); simpl; rewrite IH; reflexivity.
Qed.

Lemma received_by_sends i p n :
  forall i0, i0 <= i < i0 + n ->
             received_by i (map (sent_ok p) (seq i0 n)) = [p].
Proof.
  induction n as [|n IH]; intros i0 H; [lia|]. simpl.
  destruct (Nat.eqb_spec i i0) as [E|E].
  - subst. f_equal. clear IH H. generalize (S i0) (Nat.lt_succ_diag_r i0).
    induction n as [|n IH]; intros j Hj; simpl; [reflexivity|].
    destruct (Nat.eqb_spec i0 j); [lia|]. apply IH. lia.
  - apply IH. lia.
Qed.

Lemma received_by_close_all i destinations :
  received_by i (close_all destinations) = [].
Proof.
  unfold close_all. generalize 0. induction (length destinations) as [|n IH]; intros k;
    simpl; [reflexivity | apply IH].
Qed.

Lemma broadcast_loop_received destinations end_ i :
  i < length destinations ->
  forall frames k,
    (forall d k', In d destinations -> k <= k' < k + length frames -> cs_send d k' = None) ->
    received_by i (fst (broadcast_loop k frames end_ destinations)) = frames.
Proof.
  intros Hi. induction frames as [|p rest IH]; intros k H; simpl.
  - destruct (is_EOF end_); simpl; [apply received_by_close_all | reflexivity].
  - specialize (IH (S k)).
    destruct (broadcast_loop (S k) rest end_ destinations) as [evs r]. simpl in *.
    rewrite received_by_app, send_all_ok.
    + rewrite received_by_sends by lia. simpl. f_equal. apply IH.
      intros d k' Hd Hk. apply H; [exact Hd | lia].
    + apply Forall_forall. intros d Hd. apply H; [exact Hd | lia].
Qed.

Lemma broadcast_loop_closes destinations i :
  i < length destinations ->
  forall frames k, In (EvCloseSend i) (fst (broadcast_loop k frames io_EOF destinations)).
Proof.
  intros Hi. induction frames as [|p rest IH]; intros k; simpl.
  - unfold close_all. apply in_map, in_seq. lia.
  - specialize (IH (S k)).
    destruct (broadcast_loop (S k) rest io_EOF destinations) as [evs r]. simpl in *.
    apply in_or_app. right. exact IH.
Qed.

(** C2, as the code has it.  When no send to a backend fails, every
    backend is sent every frame of the caller, unchanged and in the
    caller's order; and when the downstream receive ends with [io.EOF]
    every backend stream is half-closed and the pipeline returns without
    putting anything on its channel. *)
Theorem broadcast_delivers_in_order :
  forall src destinations,
    destinations <> [] ->
    (forall d k, In d destinations -> k < length (ss_frames src) -> cs_send d k = None) ->
    let tr := fst (forwardServerToClients src destinations) in
    (forall i, i < length destinations -> received_by i tr = ss_frames src) /\
    (ss_end src = io_EOF ->
       (forall i, i < length destinations -> In (EvCloseSend i) tr) /\
       snd (forwardServerToClients src destinations) = None).
Proof.
  intros src destinations _ H tr. subst tr. unfold forwardServerToClients. split.
  - intros i Hi. apply broadcast_loop_received; [exact Hi|].
    intros d k' Hd Hk. apply H; [exact Hd | lia].
  - intros E. rewrite E. split.
    + intros i Hi. apply broadcast_loop_closes. exact Hi.
    + rewrite broadcast_loop_value. reflexivity.
Qed.

Lemma broadcast_delivers_in_order_witness :
  received_by 1 (fst (forwardServerToClients
                        (Sample.caller [Sample.A; Sample.B] io_EOF)
                        [Sample.backend []; Sample.backend []])) =
    [Sample.A; Sample.B].
Proof.
  refine (proj1 (broadcast_delivers_in_order
                   (Sample.caller [Sample.A; Sample.B] io_EOF)
                   [Sample.backend []; Sample.backend []] _ _) 1 _).
  - discriminate.
  - intros d k [<-|[<-|[]]] _; reflexivity.
  - simpl. lia.
Defined.

(** The send to backend 0 fails: backend 1 is never sent the frame. *)
Lemma broadcast_skips_after_failed_send :
  forwardServerToClients (Sample.caller [Sample.A] io_EOF)
                         [Sample.deaf_backend []; Sample.backend []] =
    ([EvBackendSend 0 Sample.A (Some (OtherErr "broken pipe")); EvLog 0;
      EvCloseSend 0; EvCloseSend 1], None) /\
  received_by 1 (fst (forwardServerToClients (Sample.caller [Sample.A] io_EOF)
                        [Sample.deaf_backend []; Sample.backend []])) = [] /\
  ss_frames (Sample.caller [Sample.A] io_EOF) = [Sample.A].
Proof. repeat split. Qed.

(** * Lists updated in place *)

Section UpdFacts.

Context {A B : Type}.

Lemma upd_length (i : nat) (x : A) (l : list A) : length (upd i x l) = length l.
Proof.
  revert i; induction l as [|h t IH]; intros [|i]; simpl; auto.
Qed.

Lemma map_upd (g : A -> B) (i : nat) (x : A) (l : list A) :
  map g (upd i x l) = upd i (g x) (map g l).
Proof.
  revert i; induction l as [|h t IH]; intros [|i]; simpl; auto. now rewrite IH.
Qed.

Lemma upd_same (i : nat) (x : A) (l : list A) :
  nth_error l i = Some x -> upd i x l = l.
Proof.
  revert i; induction l as [|h t IH]; intros [|i] H; simpl in *; try discriminate.
  - now inversion H.
  - now rewrite IH.
Qed.

Lemma nth_error_upd_eq (i : nat) (x : A) (l : list A) :
  i < length l -> nth_error (upd i x l) i = Some x.
Proof.
  revert i; induction l as [|h t IH]; intros [|i] H; simpl in *; try lia; auto.
  apply IH. lia.
Qed.

Lemma nth_error_upd_neq (i k : nat) (x : A) (l : list A) :
  i <> k -> nth_error (upd i x l) k = nth_error l k.
Proof.
  revert i k; induction l as [|h t IH]; intros [|i] [|k] H; simpl; auto; try lia.
Qed.

Lemma Forall_upd (P : A -> Prop) (i : nat) (x : A) (l : list A) :
  Forall P l -> P x -> Forall P (upd i x l).
Proof.
  intros Hl Hx. revert i; induction Hl as [|h t Hh Ht IH]; intros [|i]; simpl;
    constructor; auto.
Qed.

Lemma list_sum_upd (g : A -> nat) (i : nat) (x y : A) (l : list A) :
  nth_error l i = Some x ->
  list_sum (map g (upd i y l)) + g x = list_sum (map g l) + g y.
Proof.
  revert i; induction l as [|h t IH]; intros [|i] H; simpl in *; try discriminate.
  - inversion H; subst. lia.
  - specialize (IH i H). lia.
Qed.

End UpdFacts.

(** * The fan-in pipeline: runs *)

Lemma run_app dst s1 s2 st : run dst (s1 ++ s2) st = run dst s2 (run dst s1 st).
Proof.
  revert st; induction s1 as [|i s1 IH]; intros st; simpl; [reflexivity | apply IH].
Qed.

(** What every move preserves holds along every run. *)
Lemma run_preserves dst (P : fanin -> Prop) :
  (forall i st st', P st -> fanin_step dst i st = Some st' -> P st') ->
  forall sched st, P st -> P (run dst sched st).
Proof.
  intros Hstep sched. induction sched as [|i sched IH]; intros st H; simpl; [exact H|].
  apply IH. destruct (fanin_step dst i st) as [st'|] eqn:E; [eapply Hstep; eauto | exact H].
Qed.

Lemma fanin_step_inv dst i st st' :
  fanin_step dst i st = Some st' ->
  exists f f' evs push,
    nth_error (fi_followers st) i = Some f /\
    follower_step i (Nat.ltb (length (fi_buf st)) (fi_cap st)) dst f = Some (f', evs, push) /\
    st' = {| fi_followers := upd i f' (fi_followers st);
             fi_cap := fi_cap st;
             fi_buf := fi_buf st ++ match push with Some p => [p] | None => [] end;
             fi_trace := fi_trace st ++ evs |}.
Proof.
  unfold fanin_step. intros H.
  destruct (nth_error (fi_followers st) i) as [f|]; [|discriminate].
  destruct (follower_step _ _ dst f) as [[[f' evs] push]|] eqn:E; [|discriminate].
  inversion H; subst. exists f, f', evs, push. auto.
Qed.

(** Case analysis of one move of a follower. *)
Ltac follower_cases H :=
  unfold follower_step in H;
  repeat match type of H with
         | context [match ?x with _ => _ end] => destruct x eqn:?
         end;
  try discriminate H; inversion H; subst; clear H.

Lemma follower_step_src i room dst f f' evs push :
  follower_step i room dst f = Some (f', evs, push) -> f_src f' = f_src f.
Proof. intros H. follower_cases H; reflexivity. Qed.

Lemma follower_step_events i room dst f f' evs push :
  follower_step i room dst f = Some (f', evs, push) ->
  Forall (fun ev => follower_event ev = true) evs.
Proof. intros H. follower_cases H; repeat constructor. Qed.

Lemma followers_only_events dst sources sched :
  Forall (fun ev => follower_event ev = true)
         (fi_trace (run dst sched (fanin_init sources))).
Proof.
  apply run_preserves; [|constructor].
  intros i st st' H Hs. apply fanin_step_inv in Hs.
  destruct Hs as (f & f' & evs & push & _ & Hf & ->). simpl.
  apply Forall_app. split; [exact H | eapply follower_step_events; eauto].
Qed.

(** * Counting what goes on the completion channels *)

Lemma count_app k tr1 tr2 : count k (tr1 ++ tr2) = count k tr1 + count k tr2.
Proof. unfold count. now rewrite filter_app, length_app. Qed.

Lemma count_none (k good : event -> bool) tr :
  (forall ev, good ev = true -> k ev = false) ->
  Forall (fun ev => good ev = true) tr -> count k tr = 0.
Proof.
  intros Hk H. unfold count. induction H as [|ev tr Hev _ IH]; simpl; [reflexivity|].
  rewrite (Hk ev Hev). exact IH.
Qed.

Lemma send_all_events k p destinations :
  forall i, Forall (fun ev => broadcast_event ev = true) (send_all k p i destinations).
Proof.
  induction destinations as [|d rest IH]; intros i; simpl; [constructor|].
  destruct (cs_send d k); repeat constructor. apply IH.
Qed.

Lemma close_all_events destinations :
  Forall (fun ev => broadcast_event ev = true) (close_all destinations).
Proof. unfold close_all. apply Forall_map, Forall_forall. reflexivity. Qed.

Lemma broadcast_loop_shape destinations end_ frames :
  forall k, exists evs,
    Forall (fun ev => broadcast_event ev = true) evs /\
    fst (broadcast_loop k frames end_ destinations) =
      evs ++ (if is_EOF end_ then [] else [EvS2CErr (Some end_)]).
Proof.
  induction frames as [|p rest IH]; intros k; simpl.
  - destruct (is_EOF end_); simpl.
    + exists (close_all destinations). rewrite app_nil_r.
      split; [apply close_all_events | auto].
    + exists []. repeat split. constructor.
  - destruct (IH (S k)) as (evs & Hev & Hfst).
    destruct (broadcast_loop (S k) rest end_ destinations) as [evs' r]. simpl in *.
    exists (send_all k p 0 destinations ++ evs). split.
    + apply Forall_app. split; [apply send_all_events | exact Hev].
    + rewrite Hfst, app_assoc. reflexivity.
Qed.

(** C7, as the code has it.  Each pipeline puts at most one value on its
    completion channel and never closes it.  The broadcast pipeline puts
    one value, the receive error, when the downstream receive ends with
    an error other than [io.EOF], and none when it ends with [io.EOF].
    The fan-in pipeline puts one value, the result of sending the merged
    frame, once every follower has returned, and none before. *)
Theorem completion_channels :
  forall src destinations sources dst sched,
    let b := forwardServerToClients src destinations in
    let f := forwardClientsToServerUnary sources dst sched in
    let st := run dst sched (fanin_init sources) in
    count is_s2c_value (fst b) = (if is_EOF (ss_end src) then 0 else 1) /\
    snd b = (if is_EOF (ss_end src) then None else Some (Some (ss_end src))) /\
    count is_c2s_value (fst f) = (if all_exited st then 1 else 0) /\
    snd f = (if all_exited st
             then Some (ss_SendMsg dst (merge_payloads (fi_buf st))) else None) /\
    count closes_errchan (fst b) = 0 /\
    count closes_errchan (fst f) = 0.
Proof.
  intros src destinations sources dst sched b f st. subst b f st.
  unfold forwardServerToClients.
  destruct (broadcast_loop_shape destinations (ss_end src) (ss_frames src) 0)
    as (evs & Hev & Hfst).
  assert (Hs2c : count is_s2c_value evs = 0).
  { apply (count_none _ broadcast_event); [|exact Hev]. intros []; simpl; congruence. }
  assert (Hcl : count closes_errchan evs = 0).
  { apply (count_none _ broadcast_event); [|exact Hev]. intros []; simpl; congruence. }
  pose proof (followers_only_events dst sources sched) as Hf.
  assert (Hc2s : count is_c2s_value (fi_trace (run dst sched (fanin_init sources))) = 0).
  { apply (count_none _ follower_event); [|exact Hf]. intros []; simpl; congruence. }
  assert (Hcl2 : count closes_errchan (fi_trace (run dst sched (fanin_init sources))) = 0).
  { apply (count_none _ follower_event); [|exact Hf]. intros []; simpl; congruence. }
  rewrite Hfst, broadcast_loop_value, !count_app, Hs2c, Hcl.
  unfold forwardClientsToServerUnary, coordinator.
  destruct (all_exited (run dst sched (fanin_init sources))); simpl fst; simpl snd;
    rewrite !count_app, Hc2s, Hcl2;
    destruct (is_EOF (ss_end src)); repeat split; reflexivity.
Qed.

(** The caller half-closes: the broadcast pipeline has run to its end
    and its channel holds no value, neither nil nor an error. *)
Lemma broadcast_eof_signals_nothing :
  forwardServerToClients (Sample.caller [Sample.A] io_EOF) [Sample.backend []] =
    ([EvBackendSend 0 Sample.A None; EvCloseSend 0], None) /\
  count is_s2c_value
        (fst (forwardServerToClients (Sample.caller [Sample.A] io_EOF)
                                     [Sample.backend []])) = 0.
Proof. split; reflexivity. Qed.

(** * Followers: headers before payloads, trailers at the end *)

Lemma nth_error_extend {A} (tr evs : list A) m x :
  nth_error tr m = Some x -> nth_error (tr ++ evs) m = Some x /\ m < length tr.
Proof.
  intros H. assert (Hm : m < length tr) by (apply nth_error_Some; congruence).
  split; [rewrite nth_error_app1; assumption | exact Hm].
Qed.

(** A move either puts the payload in hand on the channel, or puts
    nothing there; and a follower comes to hold a payload only with its
    header set: in this very move when [j = 0], earlier otherwise. *)
Lemma follower_step_header i room dst f f' evs push :
  follower_step i room dst f = Some (f', evs, push) ->
  (push = None /\ f_j f' = f_j f /\
   Forall (fun ev => forall k p, ev <> EvPush k p) evs /\
   ((exists p, f_pc f' = Pushing p) ->
    0 < f_j f \/ exists tl, evs = EvSetHeader i (fst (cs_header (f_src f))) :: tl)) \/
  (exists p, f_pc f = Pushing p /\ push = Some p /\ evs = [EvPush i p]).
Proof.
  intros H. follower_cases H;
    try (right; eexists; repeat split; reflexivity);
    left; simpl; repeat split;
    try (repeat constructor; intros; discriminate);
    try (intros [q Hq]; discriminate Hq).
  - intros _. right. eexists. reflexivity.
  - intros _. right. eexists. reflexivity.
  - intros _. left. match goal with E : Nat.eqb _ 0 = false |- _ =>
                                      apply Nat.eqb_neq in E; lia end.
Qed.

Lemma headers_first_init sources : headers_first sources (fanin_init sources).
Proof.
  unfold headers_first, fanin_init; simpl. split; [|split].
  - rewrite map_map. simpl. apply map_id.
  - intros i f H Hf. apply nth_error_In, in_map_iff in H.
    destruct H as (src & <- & _). simpl in Hf.
    destruct Hf as [Hf | [p Hf]]; [lia | discriminate].
  - intros [|n] i p H; discriminate.
Qed.

Lemma headers_first_step dst sources i st st' :
  headers_first sources st -> fanin_step dst i st = Some st' -> headers_first sources st'.
Proof.
  intros (Hsrc & Hhdr & Hpush) Hs. apply fanin_step_inv in Hs.
  destruct Hs as (f & f' & evs & push & Hnth & Hf & ->).
  pose proof (follower_step_src _ _ _ _ _ _ _ Hf) as Hsame.
  assert (Hi : i < length (fi_followers st)) by (apply nth_error_Some; congruence).
  assert (Hsi : nth_error sources i = Some (f_src f)).
  { rewrite <- Hsrc. apply map_nth_error. exact Hnth. }
  apply follower_step_header in Hf. unfold headers_first; simpl.
  split; [|split].
  - rewrite map_upd, Hsame. rewrite upd_same; [exact Hsrc|].
    apply map_nth_error. exact Hnth.
  - intros k g Hk Hg. destruct (Nat.eq_dec i k) as [<-|Hne].
    + rewrite nth_error_upd_eq in Hk by exact Hi. inversion Hk; subst g. rewrite Hsame.
      assert (Hold : 0 < f_j f \/ (exists p, f_pc f = Pushing p) ->
                     exists m, nth_error (fi_trace st ++ evs) m =
                               Some (EvSetHeader i (fst (cs_header (f_src f))))).
      { intros H. destruct (Hhdr i f Hnth H) as [m Hm].
        exists m. apply nth_error_extend. exact Hm. }
      destruct Hf as [(_ & Hj & _ & Hp) | (p & Hpc & _ & _)].
      * destruct Hg as [Hg | Hg]; [apply Hold; left; lia|].
        destruct (Hp Hg) as [Hpos | [tl ->]]; [apply Hold; left; exact Hpos|].
        exists (length (fi_trace st)). rewrite nth_error_app2 by lia.
        rewrite Nat.sub_diag. reflexivity.
      * apply Hold. right. exists p. exact Hpc.
    + rewrite nth_error_upd_neq in Hk by exact Hne.
      destruct (Hhdr k g Hk Hg) as [m Hm]. exists m. apply nth_error_extend. exact Hm.
  - intros n k p Hn. destruct (Nat.lt_ge_cases n (length (fi_trace st))) as [Hlt | Hge].
    + rewrite nth_error_app1 in Hn by exact Hlt.
      destruct (Hpush n k p Hn) as (m & src & Hm & Hsk & Hh).
      exists m, src. repeat split; auto. apply nth_error_extend. exact Hh.
    + rewrite nth_error_app2 in Hn by exact Hge.
      destruct Hf as [(_ & _ & Hno & _) | (q & Hpc & _ & ->)].
      * exfalso. apply nth_error_In in Hn.
        rewrite Forall_forall in Hno. exact (Hno _ Hn k p eq_refl).
      * destruct (n - length (fi_trace st)) as [|d] eqn:Ed; simpl in Hn;
          [|destruct d; discriminate].
        inversion Hn; subst k p.
        destruct (Hhdr i f Hnth (or_intror (ex_intro _ q Hpc))) as [m Hm].
        destruct (nth_error_extend _ [EvPush i q] _ _ Hm) as [Hm' Hlen].
        exists m, (f_src f). repeat split; [lia | exact Hsi | exact Hm'].
Qed.

Lemma headers_first_run dst sources sched :
  headers_first sources (run dst sched (fanin_init sources)).
Proof.
  apply run_preserves; [|apply headers_first_init].
  intros i st st' H Hs. eapply headers_first_step; eauto.
Qed.

(** C8, as the code has it.  In every run of the followers, a payload
    that follower [i] puts on the delivery channel comes after that
    follower has set its backend's header on the downstream stream.  On
    its first frame a follower whose backend's header can be read sets
    the header and only then stands at the channel send; one whose
    [Header()] fails logs and returns, setting no header and queueing
    nothing.  On [io.EOF] a follower sets the backend's trailer and
    returns; on another receive error it logs and returns.  Neither
    fails the pipeline: the only value the pipeline ever signals is the
    result of sending the merged frame. *)
Theorem follower_headers_and_trailers :
  forall sources dst sched,
    let st := run dst sched (fanin_init sources) in
    (forall n i p,
        nth_error (fi_trace st) n = Some (EvPush i p) ->
        exists m src, m < n /\ nth_error sources i = Some src /\
                      nth_error (fi_trace st) m =
                        Some (EvSetHeader i (fst (cs_header src)))) /\
    (forall i room src p rest md,
        cs_header src = (md, None) ->
        exists evs,
          follower_step i room dst
            {| f_src := src; f_rest := p :: rest; f_j := 0; f_pc := Receiving |} =
          Some ({| f_src := src; f_rest := rest; f_j := 0; f_pc := Pushing p |},
                EvSetHeader i md :: evs, None) /\
          Forall (fun ev => ev = EvLog i) evs) /\
    (forall i room src p rest md e,
        cs_header src = (md, Some e) ->
        follower_step i room dst
          {| f_src := src; f_rest := p :: rest; f_j := 0; f_pc := Receiving |} =
        Some ({| f_src := src; f_rest := rest; f_j := 0; f_pc := Exited |},
              [EvLog i], None)) /\
    (forall i room src j,
        cs_end src = io_EOF ->
        follower_step i room dst
          {| f_src := src; f_rest := []; f_j := j; f_pc := Receiving |} =
        Some ({| f_src := src; f_rest := []; f_j := j; f_pc := Exited |},
              [EvSetTrailer i (cs_trailer src)], None)) /\
    (forall i room src j,
        cs_end src <> io_EOF ->
        follower_step i room dst
          {| f_src := src; f_rest := []; f_j := j; f_pc := Receiving |} =
        Some ({| f_src := src; f_rest := []; f_j := j; f_pc := Exited |},
              [EvLog i], None)) /\
    snd (forwardClientsToServerUnary sources dst sched) =
      (if all_exited st
       then Some (ss_SendMsg dst (merge_payloads (fi_buf st))) else None).
Proof.
  intros sources dst sched st. subst st. repeat split.
  - apply (headers_first_run dst sources sched).
  - intros i room src p rest md Hh. unfold follower_step; simpl. rewrite Hh.
    eexists. split; [reflexivity|]. destruct (ss_SetHeader dst md); repeat constructor.
  - intros i room src p rest md e Hh. unfold follower_step; simpl. rewrite Hh.
    reflexivity.
  - intros i room src j He. unfold follower_step; simpl. rewrite He. reflexivity.
  - intros i room src j He. unfold follower_step; simpl.
    destruct (cs_end src); [exfalso; apply He; reflexivity | reflexivity | reflexivity].
  - unfold forwardClientsToServerUnary, coordinator.
    destruct (all_exited (run dst sched (fanin_init sources))); reflexivity.
Qed.

Lemma follower_headers_and_trailers_witness :
  exists m src,
    m < 1 /\ nth_error [Sample.backend [Sample.A]] 0 = Some src /\
    nth_error (fi_trace (run (Sample.caller [] io_EOF) [0; 0]
                             (fanin_init [Sample.backend [Sample.A]]))) m =
      Some (EvSetHeader 0 (fst (cs_header src))).
Proof.
  exact (proj1 (follower_headers_and_trailers [Sample.backend [Sample.A]]
                  (Sample.caller [] io_EOF) [0; 0]) 1 0 Sample.A eq_refl).
Defined.

(** A follower whose backend's [Header()] fails: it receives its first
    frame, sets no header on the downstream stream, queues nothing and
    returns; it cannot move again. *)
Lemma follower_first_frame_without_header :
  let dst := Sample.caller [] io_EOF in
  let st := run dst [0] (fanin_init [Sample.headless_backend [Sample.A]]) in
  cs_frames (Sample.headless_backend [Sample.A]) = [Sample.A] /\
  fi_trace st = [EvLog 0] /\
  map f_pc (fi_followers st) = [Exited] /\
  fi_buf st = [] /\
  fanin_step dst 0 st = None.
Proof. repeat split. Qed.

(** * The fan-in pipeline: nothing lost, nothing twice *)

Lemma skipn_cons_next {A} (p : A) (r l : list A) :
  forall j, p :: r = skipn j l ->
            r = skipn (S j) l /\ j < length l /\ firstn (S j) l = firstn j l ++ [p].
Proof.
  induction l as [|h t IH]; intros [|j] H; simpl in *; try discriminate.
  - inversion H; subst. repeat split. lia.
  - destruct (IH j H) as (Hr & Hj & Hf). repeat split; [exact Hr | lia |].
    simpl in Hf. rewrite Hf. reflexivity.
Qed.

(** One move keeps a follower consistent, uses up fuel, and either
    leaves the channel alone or appends the next frame of its backend. *)
Lemma follower_step_ok i room dst f f' evs push :
  follower_ok f ->
  follower_step i room dst f = Some (f', evs, push) ->
  follower_ok f' /\ fuel_of f' < fuel_of f /\
  ((push = None /\ delivered f' = delivered f /\ f_j f' = f_j f) \/
   (exists p, push = Some p /\ f_j f' = S (f_j f) /\
              delivered f' = delivered f ++ [p])).
Proof.
  destruct f as [src rest j pc].
  unfold follower_ok, follower_step, delivered, fuel_of; simpl.
  intros [Hj Hpc] H. destruct pc as [|p|]; [| |discriminate].
  - destruct rest as [|p r].
    + assert (Hlen : j = length (cs_frames src)).
      { symmetry in Hpc. apply skipn_all_iff in Hpc. lia. }
      destruct (is_EOF (cs_end src)); inversion H; subst; simpl;
        (split; [split; [lia | reflexivity] | split; [lia | left; auto]]).
    + destruct (Nat.eqb j 0).
      * destruct (cs_header src) as [md [e|]] eqn:Eh; inversion H; subst; simpl.
        -- rewrite Eh.
           split; [split; [exact Hj | discriminate] | split; [lia | left; auto]].
        -- split; [split; [exact Hj | exact Hpc] | split; [lia | left; auto]].
      * inversion H; subst; simpl.
        split; [split; [exact Hj | exact Hpc] | split; [lia | left; auto]].
  - destruct room; [|discriminate]. inversion H; subst; simpl.
    destruct (skipn_cons_next _ _ _ _ Hpc) as (Hr & Hlt & Hf).
    split; [split; [lia | exact Hr] | split; [lia | right]].
    exists p. repeat split. exact Hf.
Qed.

Lemma fanin_ok_init sources : fanin_ok sources (fanin_init sources).
Proof.
  unfold fanin_ok, fanin_init; simpl. repeat split.
  - rewrite map_map. simpl. apply map_id.
  - apply Forall_map, Forall_forall. intros src _.
    unfold follower_ok; simpl. split; [lia | reflexivity].
  - induction sources as [|s rest IH]; simpl; [reflexivity | exact IH].
  - rewrite map_map. unfold delivered; simpl.
    replace (map (fun _ : ClientStream => []) sources)
      with (repeat (@nil payload) (length sources)); [constructor|].
    induction sources as [|s rest IH]; simpl; [reflexivity | now rewrite IH].
Qed.

Lemma fanin_ok_step dst sources i st st' :
  fanin_ok sources st -> fanin_step dst i st = Some st' -> fanin_ok sources st'.
Proof.
  intros (Hsrc & Hcap & Hall & Hlen & Hmerge) Hs. apply fanin_step_inv in Hs.
  destruct Hs as (f & f' & evs & push & Hnth & Hf & ->).
  pose proof (follower_step_src _ _ _ _ _ _ _ Hf) as Hsame.
  assert (Hfok : follower_ok f).
  { rewrite Forall_forall in Hall. apply Hall. eapply nth_error_In; eauto. }
  destruct (follower_step_ok _ _ _ _ _ _ _ Hfok Hf) as (Hok' & _ & Hpush).
  pose proof (list_sum_upd f_j i f f' _ Hnth) as Hsum.
  unfold fanin_ok; simpl. repeat split.
  - rewrite map_upd, Hsame. rewrite upd_same; [exact Hsrc|].
    apply map_nth_error. exact Hnth.
  - exact Hcap.
  - apply Forall_upd; assumption.
  - destruct Hpush as [(-> & _ & Hj) | (p & -> & Hj & _)];
      rewrite length_app; simpl; lia.
  - destruct Hpush as [(-> & Hd & _) | (p & -> & _ & Hd)].
    + rewrite app_nil_r, map_upd, Hd, upd_same; [exact Hmerge|].
      apply map_nth_error. exact Hnth.
    + rewrite map_upd, Hd. apply Merge_snoc; [|exact Hmerge].
      apply map_nth_error. exact Hnth.
Qed.

Lemma fanin_ok_run dst sources sched :
  fanin_ok sources (run dst sched (fanin_init sources)).
Proof.
  apply run_preserves; [|apply fanin_ok_init].
  intros i st st' H Hs. eapply fanin_ok_step; eauto.
Qed.

Lemma list_sum_le {A} (g h : A -> nat) (l : list A) :
  Forall (fun a => g a <= h a) l -> list_sum (map g l) <= list_sum (map h l).
Proof. induction 1; simpl; lia. Qed.

Lemma list_sum_strict {A} (g h : A -> nat) (l : list A) :
  Forall (fun a => g a <= h a) l ->
  forall i x, nth_error l i = Some x -> g x < h x ->
              list_sum (map g l) < list_sum (map h l).
Proof.
  induction 1 as [|a t Ha Ht IH]; intros [|i] x Hx Hlt; simpl in *; try discriminate.
  - inversion Hx; subst. pose proof (list_sum_le g h t Ht). lia.
  - specialize (IH i x Hx Hlt). lia.
Qed.

Lemma total_frames_followers sources (l : list follower) :
  map f_src l = sources ->
  total_frames sources = list_sum (map (fun f => length (cs_frames (f_src f))) l).
Proof.
  intros <-. unfold total_frames. rewrite length_concat, !map_map. reflexivity.
Qed.

(** When the backends send no more frames than the channel holds, a
    follower that has not returned can always move. *)
Lemma fanin_progress dst sources st i f :
  fanin_ok sources st ->
  total_frames sources <= length sources ->
  nth_error (fi_followers st) i = Some f ->
  exited f = false ->
  exists st', fanin_step dst i st = Some st'.
Proof.
  intros (Hsrc & Hcap & Hall & Hlen & _) Hbound Hnth Hex.
  assert (Hfok : follower_ok f).
  { rewrite Forall_forall in Hall. apply Hall. eapply nth_error_In; eauto. }
  assert (Hstep : exists r, follower_step i (Nat.ltb (length (fi_buf st)) (fi_cap st))
                                          dst f = Some r).
  { destruct f as [src rest j pc]. unfold exited in Hex. simpl in Hex.
    destruct pc as [|p|]; [| |discriminate].
    - unfold follower_step; simpl.
      destruct rest;
        [destruct (is_EOF (cs_end src))
        | destruct (Nat.eqb j 0); [destruct (cs_header src) as [md [e|]]|]];
        eexists; reflexivity.
    - assert (Hroom : Nat.ltb (length (fi_buf st)) (fi_cap st) = true).
      { apply Nat.ltb_lt. rewrite Hlen, Hcap.
        rewrite (total_frames_followers sources (fi_followers st) Hsrc) in Hbound.
        eapply Nat.lt_le_trans; [|exact Hbound].
        apply (list_sum_strict f_j (fun f => length (cs_frames (f_src f)))
                 (fi_followers st)) with (i := i)
                 (x := {| f_src := src; f_rest := rest; f_j := j; f_pc := Pushing p |}).
        - eapply Forall_impl; [|exact Hall]. intros a [Ha _]. exact Ha.
        - exact Hnth.
        - destruct Hfok as [_ Hp]. simpl in *.
          destruct (skipn_cons_next _ _ _ _ Hp) as (_ & Hlt & _). exact Hlt. }
      unfold follower_step; simpl. rewrite Hroom. eexists. reflexivity. }
  destruct Hstep as [[[f' evs] push] Hstep].
  unfold fanin_step. rewrite Hnth, Hstep. eexists. reflexivity.
Qed.

Lemma fanin_step_fuel dst i st st' :
  Forall follower_ok (fi_followers st) ->
  fanin_step dst i st = Some st' -> fuel st' < fuel st.
Proof.
  intros Hall Hs. apply fanin_step_inv in Hs.
  destruct Hs as (f & f' & evs & push & Hnth & Hf & ->).
  assert (Hfok : follower_ok f).
  { rewrite Forall_forall in Hall. apply Hall. eapply nth_error_In; eauto. }
  destruct (follower_step_ok _ _ _ _ _ _ _ Hfok Hf) as (_ & Hlt & _).
  pose proof (list_sum_upd fuel_of i f f' _ Hnth). unfold fuel; simpl. lia.
Qed.

Lemma not_all_exited st :
  all_exited st = false ->
  exists i f, nth_error (fi_followers st) i = Some f /\ exited f = false.
Proof.
  unfold all_exited. induction (fi_followers st) as [|f t IH]; simpl; [discriminate|].
  destruct (exited f) eqn:E; simpl.
  - intros H. destruct (IH H) as (i & g & Hi & Hg). exists (S i), g. auto.
  - intros _. exists 0, f. auto.
Qed.

(** Under that bound every state of a run can be driven to the point
    where all followers have returned. *)
Lemma fanin_completes dst sources :
  total_frames sources <= length sources ->
  forall n st, fuel st <= n -> fanin_ok sources st ->
               exists sched, all_exited (run dst sched st) = true.
Proof.
  intros Hbound. induction n as [|n IH]; intros st Hn Hok;
    destruct (all_exited st) eqn:E; try (exists []; exact E);
    destruct (not_all_exited st E) as (i & f & Hnth & Hex);
    destruct (fanin_progress dst sources st i f Hok Hbound Hnth Hex) as [st' Hs];
    pose proof (fanin_step_fuel dst i st st' (proj1 (proj2 (proj2 Hok))) Hs) as Hlt.
  - lia.
  - destruct (IH st') as [sched Hsched]; [lia | eapply fanin_ok_step; eauto |].
    exists (i :: sched). simpl. rewrite Hs. exact Hsched.
Qed.

(** And a state in which no follower can move is such a point. *)
Lemma fanin_stuck_is_done dst sources st :
  total_frames sources <= length sources ->
  fanin_ok sources st ->
  (forall i, fanin_step dst i st = None) ->
  all_exited st = true.
Proof.
  intros Hbound Hok Hstuck. destruct (all_exited st) eqn:E; [reflexivity|].
  destruct (not_all_exited st E) as (i & f & Hnth & Hex).
  destruct (fanin_progress dst sources st i f Hok Hbound Hnth Hex) as [st' Hs].
  rewrite Hstuck in Hs. discriminate.
Qed.

Lemma fanin_all_delivered sources st :
  fanin_ok sources st ->
  Forall (fun s => snd (cs_header s) = None) sources ->
  all_exited st = true ->
  map delivered (fi_followers st) = map cs_frames sources.
Proof.
  intros (Hsrc & _ & Hall & _) Hhdr Hex. rewrite <- Hsrc in *. rewrite map_map.
  unfold all_exited in Hex. rewrite forallb_forall in Hex.
  rewrite Forall_forall in Hall. rewrite Forall_forall in Hhdr.
  apply map_ext_in. intros f Hin.
  specialize (Hex f Hin). specialize (Hall f Hin).
  assert (Hh : snd (cs_header (f_src f)) = None) by (apply Hhdr, in_map, Hin).
  unfold follower_ok, exited, delivered in *.
  destruct Hall as [_ Hpc]. destruct (f_pc f); try discriminate.
  rewrite (Hpc Hh). apply firstn_all.
Qed.

(** * Merges *)

Lemma Merge_single {A} (ls : list (list A)) (r : list A) :
  Merge ls r -> forall l, ls = [l] -> r = l.
Proof.
  induction 1 as [n | ls i l x r Hnth HM IH]; intros l0 E.
  - destruct n as [|[|n]]; simpl in E; try discriminate. now inversion E.
  - assert (Hlen : length ls = 1).
    { rewrite <- (upd_length i (l ++ [x]) ls), E. reflexivity. }
    destruct ls as [|a [|b t]]; simpl in Hlen; try discriminate Hlen.
    destruct i as [|[|i]]; simpl in *; try discriminate Hnth.
    inversion Hnth; inversion E; subst. now rewrite (IH l eq_refl).
Qed.

Lemma concat_upd_snoc {A} (ls : list (list A)) (x : A) :
  forall i l, nth_error ls i = Some l ->
              Permutation (concat (upd i (l ++ [x]) ls)) (concat ls ++ [x]).
Proof.
  induction ls as [|h t IH]; intros [|i] l H; simpl in *; try discriminate.
  - inversion H; subst. rewrite <- !app_assoc.
    apply Permutation_app_head, Permutation_app_comm.
  - rewrite <- app_assoc. apply Permutation_app_head. apply IH. exact H.
Qed.

Lemma Merge_Permutation {A} (ls : list (list A)) (r : list A) :
  Merge ls r -> Permutation (concat ls) r.
Proof.
  induction 1 as [n | ls i l x r Hnth HM IH].
  - induction n; simpl; auto.
  - etransitivity; [apply concat_upd_snoc; exact Hnth|].
    apply Permutation_app_tail. exact IH.
Qed.

Lemma Permutation_concat {A} (l l' : list (list A)) :
  Permutation l l' -> Permutation (concat l) (concat l').
Proof.
  induction 1; simpl.
  - constructor.
  - now apply Permutation_app_head.
  - rewrite !app_assoc. apply Permutation_app_tail, Permutation_app_comm.
  - etransitivity; eauto.
Qed.

(** C1, as the code has it.  Suppose the backends together produce no
    more frames than there are backends (the capacity of the delivery
    channel; so it is when each backend gives one reply) and every
    follower can read its backend's header.  Then every run can be
    continued until all followers have returned, no run stops earlier,
    and once they have returned the pipeline sends exactly one merged
    frame: the concatenation of all frames of all backends, each exactly
    once, those of one backend in that backend's order.  With a single
    backend it is the concatenation of its frames in order. *)
Theorem fanin_merge_lossless :
  forall sources dst,
    total_frames sources <= length sources ->
    Forall (fun s => snd (cs_header s) = None) sources ->
    (forall sched, exists sched',
        all_exited (run dst (sched ++ sched') (fanin_init sources)) = true) /\
    (forall sched,
        (forall i, fanin_step dst i (run dst sched (fanin_init sources)) = None) ->
        all_exited (run dst sched (fanin_init sources)) = true) /\
    (forall sched,
        let st := run dst sched (fanin_init sources) in
        let merged := merge_payloads (fi_buf st) in
        all_exited st = true ->
        Merge (map cs_frames sources) (fi_buf st) /\
        Permutation merged (concat (concat (map cs_frames sources))) /\
        forwardClientsToServerUnary sources dst sched =
          (fi_trace st ++
             [EvClose "payloadCh"; EvDownSend merged; EvC2SErr (ss_SendMsg dst merged)],
           Some (ss_SendMsg dst merged)) /\
        count is_down_send (fst (forwardClientsToServerUnary sources dst sched)) = 1 /\
        (forall s, sources = [s] -> merged = concat (cs_frames s))).
Proof.
  intros sources dst Hbound Hhdr. split; [|split].
  - intros sched.
    destruct (fanin_completes dst sources Hbound
                (fuel (run dst sched (fanin_init sources)))
                (run dst sched (fanin_init sources)) (le_n _)
                (fanin_ok_run dst sources sched)) as [sched' H].
    exists sched'. rewrite run_app. exact H.
  - intros sched Hstuck.
    apply (fanin_stuck_is_done dst sources); auto. apply fanin_ok_run.
  - intros sched st merged Hex. subst st merged.
    pose proof (fanin_ok_run dst sources sched) as Hok.
    assert (HM : Merge (map cs_frames sources)
                       (fi_buf (run dst sched (fanin_init sources)))).
    { rewrite <- (fanin_all_delivered sources _ Hok Hhdr Hex).
      exact (proj2 (proj2 (proj2 (proj2 Hok)))). }
    assert (Hfw : forwardClientsToServerUnary sources dst sched =
                  (fi_trace (run dst sched (fanin_init sources)) ++
                     [EvClose "payloadCh";
                      EvDownSend (merge_payloads (fi_buf (run dst sched (fanin_init sources))));
                      EvC2SErr (ss_SendMsg dst
                                  (merge_payloads (fi_buf (run dst sched (fanin_init sources)))))],
                   Some (ss_SendMsg dst
                           (merge_payloads (fi_buf (run dst sched (fanin_init sources))))))).
    { unfold forwardClientsToServerUnary, coordinator. rewrite Hex. reflexivity. }
    split; [exact HM | split; [|split; [exact Hfw | split]]].
    + unfold merge_payloads. apply Permutation_concat. symmetry.
      apply Merge_Permutation. exact HM.
    + rewrite Hfw. simpl fst. rewrite count_app.
      rewrite (count_none is_down_send follower_event);
        [reflexivity | intros []; simpl; congruence | apply followers_only_events].
    + intros s E. unfold merge_payloads. f_equal.
      apply (Merge_single _ _ HM). rewrite E. reflexivity.
Qed.

Lemma fanin_merge_lossless_witness :
  snd (forwardClientsToServerUnary [Sample.backend [Sample.A]; Sample.backend [Sample.B]]
         (Sample.caller [] io_EOF) [1; 0; 1; 0; 1; 0]) =
    Some (ss_SendMsg (Sample.caller [] io_EOF) (Sample.B ++ Sample.A)).
Proof.
  assert (Hbound : total_frames [Sample.backend [Sample.A]; Sample.backend [Sample.B]] <=
                   length [Sample.backend [Sample.A]; Sample.backend [Sample.B]])
    by (vm_compute; lia).
  assert (Hhdr : Forall (fun s => snd (cs_header s) = None)
                        [Sample.backend [Sample.A]; Sample.backend [Sample.B]])
    by (repeat constructor).
  destruct (fanin_merge_lossless _ (Sample.caller [] io_EOF) Hbound Hhdr) as (_ & _ & H).
  destruct (H [1; 0; 1; 0; 1; 0] eq_refl) as (_ & _ & Hfw & _).
  rewrite Hfw. reflexivity.
Defined.

(** One backend that replies with two frames: after the first frame the
    channel is full, the follower waits at the channel send, and the
    coordinator waits for the follower; nothing is sent downstream. *)
Lemma two_frames_never_merged :
  forall sched,
    snd (forwardClientsToServerUnary [Sample.backend [Sample.A; Sample.B]]
           (Sample.caller [] io_EOF) sched) = None.
Proof.
  intros sched. unfold forwardClientsToServerUnary, coordinator.
  set (src := Sample.backend [Sample.A; Sample.B]).
  set (P := fun st : fanin =>
         fi_cap st = 1 /\
         exists rest j pc,
           fi_followers st = [{| f_src := src; f_rest := rest; f_j := j; f_pc := pc |}] /\
           ((pc = Receiving /\ rest = [Sample.A; Sample.B] /\ j = 0 /\ fi_buf st = []) \/
            (pc = Pushing Sample.A /\ rest = [Sample.B] /\ j = 0 /\ fi_buf st = []) \/
            (pc = Receiving /\ rest = [Sample.B] /\ j = 1 /\ fi_buf st = [Sample.A]) \/
            (pc = Pushing Sample.B /\ rest = [] /\ j = 1 /\ fi_buf st = [Sample.A]))).
  assert (HP : P (run (Sample.caller [] io_EOF) sched (fanin_init [src]))).
  { apply run_preserves.
    - intros i [fl cap buf tr] st' (Hcap & rest & j & pc & Hfl & Hcase) Hs.
      simpl in *. subst fl cap. destruct i as [|i].
      + destruct Hcase as [H | [H | [H | H]]];
          destruct H as (-> & -> & -> & ->); cbv in Hs; try discriminate Hs;
          inversion Hs; subst; (split; [reflexivity|]);
          do 3 eexists; (split; [reflexivity|]); simpl; intuition auto.
      + unfold fanin_step in Hs. simpl in Hs. destruct i; discriminate Hs.
    - split; [reflexivity|]. do 3 eexists. split; [reflexivity|]. left. auto. }
  destruct HP as (_ & rest & j & pc & Hfl & Hcase).
  unfold all_exited. rewrite Hfl.
  destruct Hcase as [H | [H | [H | H]]]; destruct H as (-> & _); reflexivity.
Qed.

(** Two calls with one backend whose frames do not reach the caller.
    The backend replies with two frames: the follower is blocked with
    the second in hand, and nothing is sent downstream.  The backend's
    header cannot be read: its frame is dropped, and the merged frame
    is empty. *)
Lemma fanin_blocks_or_drops :
  (let dst := Sample.caller [] io_EOF in
   let st := run dst [0; 0; 0] (fanin_init [Sample.backend [Sample.A; Sample.B]]) in
   fi_buf st = [Sample.A] /\
   map f_pc (fi_followers st) = [Pushing Sample.B] /\
   fanin_step dst 0 st = None /\
   forwardClientsToServerUnary [Sample.backend [Sample.A; Sample.B]] dst
                               [0; 0; 0; 0; 0; 0] =
     ([EvSetHeader 0 [("h", ["1"])]; EvPush 0 Sample.A], None)) /\
  forwardClientsToServerUnary [Sample.headless_backend [Sample.A]]
                              (Sample.caller [] io_EOF) [0] =
    ([EvLog 0; EvClose "payloadCh"; EvDownSend []; EvC2SErr None], Some None).
Proof. repeat split. Qed.

(** * The stream wrapper: two mutual exclusion scopes *)

Module WrapperFacts.

Import Wrapper.

Lemma occupancy_upd mu t th th' l :
  nth_error l t = Some th ->
  occupancy mu (upd t th' l) + (if in_section mu th then 1 else 0) =
  occupancy mu l + (if in_section mu th' then 1 else 0).
Proof.
  revert t; induction l as [|h r IH]; intros [|t] H; simpl in *; try discriminate.
  - inversion H; subst. lia.
  - specialize (IH t H). lia.
Qed.


Lemma balanced_init calls : balanced (winit calls).
Proof.
  intros mu. unfold winit; simpl.
  replace (locked _ mu) with false by (destruct mu; reflexivity).
  induction calls as [|m r IH]; simpl; [reflexivity|].
  unfold in_section at 1; simpl. destruct (guard m); simpl; rewrite ?andb_false_r; exact IH.
Qed.

Lemma balanced_step t st st' :
  balanced st -> wstep t st = Some st' -> balanced st'.
Proof.
  intros Hb Hs mu. unfold wstep in Hs.
  destruct (nth_error (w_threads st) t) as [[m pc]|] eqn:Hnth; [|discriminate].
  simpl in Hs.
  assert (Hocc : forall pc',
             occupancy mu (upd t {| t_method := m; t_pc := pc' |} (w_threads st)) +
             (if in_section mu {| t_method := m; t_pc := pc |} then 1 else 0) =
             occupancy mu (w_threads st) +
             (if in_section mu {| t_method := m; t_pc := pc' |} then 1 else 0)).
  { intros pc'. apply occupancy_upd. exact Hnth. }
  pose proof (Hb mu) as Hmu. unfold in_section in Hocc. simpl in Hocc.
  destruct pc; try discriminate;
    [ specialize (Hocc Holding) | specialize (Hocc InCall)
    | specialize (Hocc Returned) | specialize (Hocc Done) ];
    destruct (guard m) as [mu0|] eqn:Hg;
    try (destruct (locked st mu0) eqn:Hl; [discriminate|]);
    inversion Hs; subst; clear Hs; simpl in *;
    try (pose proof (Hb mu0) as Hmu0; rewrite ?Hl in Hmu0);
    destruct mu; try destruct mu0; simpl in *;
    rewrite ?andb_false_r, ?andb_true_r in *; simpl in *;
    repeat match goal with
           | H : context [if ?b then _ else _] |- _ => destruct b eqn:?
           | |- context [if ?b then _ else _] => destruct b eqn:?
           end; try discriminate; try congruence; try lia.
Qed.

Lemma balanced_run calls sched : balanced (wrun sched (winit calls)).
Proof.
  generalize (balanced_init calls). generalize (winit calls).
  induction sched as [|t sched IH]; intros st H; simpl; [exact H|].
  apply IH. destruct (wstep t st) as [st'|] eqn:E; [eapply balanced_step; eauto | exact H].
Qed.

End WrapperFacts.

(** * Opening the backend streams *)

(** X1.  The handler's opening loop goes through the connections in
    index order.  When every [NewClientStream] succeeds it yields one
    stream per connection, in the same order.  When connection [k] is
    the first to fail it stops there with that error: the connections
    after [k] are never tried. *)
Theorem open_streams_in_order :
  forall newStream conns,
    ((forall i c, nth_error conns i = Some c -> exists s, newStream i c = inl s) ->
     exists ss,
       open_streams newStream 0 conns =
         (inl ss, map EvNewClientStream (seq 0 (length conns))) /\
       length ss = length conns /\
       (forall i c, nth_error conns i = Some c ->
                    exists s, nth_error ss i = Some s /\ newStream i c = inl s)) /\
    (forall k c e,
        nth_error conns k = Some c ->
        newStream k c = inr e ->
        (forall i c', i < k -> nth_error conns i = Some c' ->
                      exists s, newStream i c' = inl s) ->
        open_streams newStream 0 conns =
          (inr e, map EvNewClientStream (seq 0 (S k)))).
Proof.
  intros newStream conns. split.
  - intros H. apply (open_streams_all_ok newStream conns 0 H).
  - intros k c e Hk He Hb. apply (open_streams_first_failure newStream conns 0 k c e Hk He Hb).
Qed.

Lemma open_streams_in_order_witness :
  open_streams (Sample.open_all [Sample.backend [Sample.A]]) 0 [Some 7; Some 8; Some 9] =
    (inr (OtherErr "unavailable"), [EvNewClientStream 0; EvNewClientStream 1]).
Proof.
  apply (proj2 (open_streams_in_order (Sample.open_all [Sample.backend [Sample.A]])
                  [Some 7; Some 8; Some 9]) 1 (Some 8) (OtherErr "unavailable"));
    [reflexivity | reflexivity |].
  intros i c' Hi Hc'. assert (i = 0) by lia. subst i. eexists. reflexivity.
Defined.

(** * The broadcast: who is sent what *)

Lemma received_by_send_all_later i k p destinations :
  forall i1, i < i1 -> received_by i (send_all k p i1 destinations) = [].
Proof.
  induction destinations as [|d r IH]; intros i1 H; simpl; [reflexivity|].
  destruct (cs_send d k); simpl; destruct (Nat.eqb_spec i i1); try lia; auto.
Qed.

Lemma received_by_send_all i k p destinations :
  forall i0,
    i0 <= i ->
    received_by i (send_all k p i0 destinations) =
      if Nat.ltb (i - i0) (length destinations) &&
         forallb (fun d => send_accepted d k) (firstn (S (i - i0)) destinations)
      then [p] else [].
Proof.
  induction destinations as [|d rest IH]; intros i0 Hi; simpl; [reflexivity|].
  unfold send_accepted at 1. destruct (cs_send d k) as [e|] eqn:Ed; simpl.
  - rewrite andb_false_r. reflexivity.
  - destruct (Nat.eqb_spec i i0) as [E|E].
    + subst i0. rewrite Nat.sub_diag. simpl.
      rewrite received_by_send_all_later by lia. reflexivity.
    + rewrite (IH (S i0)) by lia.
      destruct (i - i0) as [|n] eqn:En; [lia|].
      replace (i - S i0) with n by lia. reflexivity.
Qed.

Lemma broadcast_loop_received_by destinations end_ i :
  i < length destinations ->
  forall frames k,
    received_by i (fst (broadcast_loop k frames end_ destinations)) =
      map snd (filter (fun kp => accepted_upto destinations i (fst kp)) (numbered k frames)).
Proof.
  intros Hi. induction frames as [|p rest IH]; intros k; simpl.
  - destruct (is_EOF end_); simpl; [apply received_by_close_all | reflexivity].
  - specialize (IH (S k)).
    destruct (broadcast_loop (S k) rest end_ destinations) as [evs r]. simpl in *.
    rewrite received_by_app, IH, received_by_send_all by lia.
    rewrite Nat.sub_0_r. unfold numbered; simpl. unfold accepted_upto at 2.
    apply Nat.ltb_lt in Hi. rewrite Hi. simpl.
    destruct (forallb _ _); reflexivity.
Qed.

(** X2.  Whatever the backends do, backend [i] is sent exactly those
    frames of the caller, in the caller's order, that every backend up
    to [i] accepts; a frame that some earlier backend refuses is not
    offered to [i], and the frames after it still are. *)
Theorem broadcast_received_exactly :
  forall src destinations i,
    i < length destinations ->
    received_by i (fst (forwardServerToClients src destinations)) =
      map snd (filter (fun kp => accepted_upto destinations i (fst kp))
                      (numbered 0 (ss_frames src))).
Proof.
  intros src destinations i Hi. apply broadcast_loop_received_by. exact Hi.
Qed.

Lemma broadcast_received_exactly_witness :
  received_by 1 (fst (forwardServerToClients
                        (Sample.caller [Sample.A; Sample.B] io_EOF)
                        [{| cs_frames := []; cs_end := io_EOF; cs_header := ([], None);
                            cs_trailer := [];
                            cs_send := fun k => if Nat.eqb k 0
                                                then Some (OtherErr "busy") else None |};
                         Sample.backend []])) = [Sample.B].
Proof.
  refine (broadcast_received_exactly _ _ 1 _). simpl. lia.
Defined.

Lemma broadcast_loop_sends_then_tail destinations end_ frames :
  forall k, exists sends,
    Forall (fun ev => send_event ev = true) sends /\
    fst (broadcast_loop k frames end_ destinations) =
      sends ++ (if is_EOF end_
                then map EvCloseSend (seq 0 (length destinations))
                else [EvS2CErr (Some end_)]).
Proof.
  induction frames as [|p rest IH]; intros k; simpl.
  - exists []. split; [constructor|]. destruct (is_EOF end_); reflexivity.
  - destruct (IH (S k)) as (sends & Hs & Hfst).
    destruct (broadcast_loop (S k) rest end_ destinations) as [evs r]. simpl in *.
    exists (send_all k p 0 destinations ++ sends). split.
    + apply Forall_app. split; [|exact Hs].
      clear. generalize 0. induction destinations as [|d r IH]; intros i; simpl;
        [constructor|].
      destruct (cs_send d k); repeat constructor. apply IH.
    + rewrite Hfst, app_assoc. reflexivity.
Qed.

(** X3.  The trace of the broadcast pipeline is all its sends, then its
    ending: on [io.EOF] one [CloseSend] per backend, each backend once,
    in index order; on another receive error no [CloseSend] at all, only
    the error on the channel.  No frame is sent after a half-close. *)
Theorem broadcast_sends_then_closes :
  forall src destinations,
  exists sends,
    Forall (fun ev => send_event ev = true) sends /\
    fst (forwardServerToClients src destinations) =
      sends ++ (if is_EOF (ss_end src)
                then map EvCloseSend (seq 0 (length destinations))
                else [EvS2CErr (Some (ss_end src))]).
Proof.
  intros src destinations. apply broadcast_loop_sends_then_tail.
Qed.

(** * The delivery channel: what can be on it *)

Lemma follower_step_push_room i room dst f f' evs p :
  follower_step i room dst f = Some (f', evs, Some p) -> room = true.
Proof. intros H. follower_cases H; reflexivity. Qed.

Lemma channel_within_capacity dst sources sched :
  length (fi_buf (run dst sched (fanin_init sources))) <= length sources.
Proof.
  assert (H : fi_cap (run dst sched (fanin_init sources)) = length sources /\
              length (fi_buf (run dst sched (fanin_init sources))) <=
              fi_cap (run dst sched (fanin_init sources))).
  { apply (run_preserves dst (fun st => fi_cap st = length sources /\
                                        length (fi_buf st) <= fi_cap st)).
    - intros i st st' [Hcap Hlen] Hs. apply fanin_step_inv in Hs.
      destruct Hs as (f & f' & evs & push & _ & Hf & ->). simpl.
      split; [exact Hcap|]. rewrite length_app. destruct push as [p|]; simpl; [|lia].
      apply follower_step_push_room in Hf. apply Nat.ltb_lt in Hf. lia.
    - simpl. split; [reflexivity | lia]. }
  destruct H as [Hcap Hlen]. rewrite Hcap in Hlen. exact Hlen.
Qed.

Lemma delivered_are_prefixes (l : list follower) :
  Forall2 (fun s pre => exists n, pre = firstn n (cs_frames s))
          (map f_src l) (map delivered l).
Proof.
  induction l as [|f r IH]; simpl; constructor; [|exact IH].
  exists (f_j f). reflexivity.
Qed.

(** X4.  At every point of every run, whatever the backends send and
    however their headers and receives end, the delivery channel holds
    no more payloads than there are backends, and its content is made of
    a prefix of each backend's frames: each frame at most once, the
    frames of one backend in that backend's order, and nothing else. *)
Theorem fanin_channel_content :
  forall sources dst sched,
    let st := run dst sched (fanin_init sources) in
    length (fi_buf st) <= length sources /\
    exists prefixes,
      Merge prefixes (fi_buf st) /\
      Forall2 (fun s pre => exists n, pre = firstn n (cs_frames s)) sources prefixes.
Proof.
  intros sources dst sched st. subst st. split; [apply channel_within_capacity|].
  destruct (fanin_ok_run dst sources sched) as (Hsrc & _ & _ & _ & HM).
  exists (map delivered (fi_followers (run dst sched (fanin_init sources)))).
  split; [exact HM|]. rewrite <- Hsrc at 1. apply delivered_are_prefixes.
Qed.

(** X5.  When every header can be read and the backends produce more
    frames in all than there are backends, the unary fan-in never comes
    to an end: under no schedule do all followers return, so no merged
    frame is sent and nothing is put on the completion channel. *)
Theorem fanin_overflow_hangs :
  forall sources dst sched,
    Forall (fun s => snd (cs_header s) = None) sources ->
    length sources < total_frames sources ->
    all_exited (run dst sched (fanin_init sources)) = false /\
    snd (forwardClientsToServerUnary sources dst sched) = None /\
    count is_down_send (fst (forwardClientsToServerUnary sources dst sched)) = 0.
Proof.
  intros sources dst sched Hhdr Hover.
  assert (Hne : all_exited (run dst sched (fanin_init sources)) = false).
  { destruct (all_exited (run dst sched (fanin_init sources))) eqn:Hex; [|reflexivity].
    exfalso.
    pose proof (fanin_ok_run dst sources sched) as Hok.
    pose proof (fanin_all_delivered sources _ Hok Hhdr Hex) as Hd.
    destruct Hok as (_ & _ & _ & _ & HM). rewrite Hd in HM.
    apply Merge_Permutation, Permutation_length in HM.
    pose proof (channel_within_capacity dst sources sched) as Hcap.
    unfold total_frames in Hover. lia. }
  split; [exact Hne|].
  unfold forwardClientsToServerUnary, coordinator. rewrite Hne. simpl.
  split; [reflexivity|]. rewrite app_nil_r.
  apply (count_none is_down_send follower_event);
    [intros []; simpl; congruence | apply followers_only_events].
Qed.

Lemma fanin_overflow_hangs_witness :
  snd (forwardClientsToServerUnary
         [Sample.backend [Sample.A; Sample.B]; Sample.backend [Sample.B]]
         (Sample.caller [] io_EOF) [0; 1; 0; 1; 0; 1; 0; 1]) = None.
Proof.
  apply (fanin_overflow_hangs
           [Sample.backend [Sample.A; Sample.B]; Sample.backend [Sample.B]]
           (Sample.caller [] io_EOF) [0; 1; 0; 1; 0; 1; 0; 1]).
  - repeat constructor.
  - vm_compute. lia.
Defined.

(** * The handler as a whole *)

Lemma Forall_not_cancel (good : event -> bool) tr :
  good EvCancel = false ->
  Forall (fun ev => good ev = true) tr -> ~ In EvCancel tr.
Proof.
  intros Hg H Hin. rewrite Forall_forall in H. specialize (H _ Hin). congruence.
Qed.

Lemma broadcast_never_cancels src destinations :
  ~ In EvCancel (fst (forwardServerToClients src destinations)).
Proof.
  unfold forwardServerToClients.
  destruct (broadcast_loop_shape destinations (ss_end src) (ss_frames src) 0)
    as (evs & Hev & ->).
  intros Hin. apply in_app_or in Hin. destruct Hin as [Hin | Hin].
  - exact (Forall_not_cancel broadcast_event evs eq_refl Hev Hin).
  - destruct (is_EOF (ss_end src)); simpl in Hin; [exact Hin|].
    destruct Hin as [Hin | []]; discriminate.
Qed.

Lemma fanin_never_cancels sources dst sched :
  ~ In EvCancel (fst (forwardClientsToServerUnary sources dst sched)).
Proof.
  unfold forwardClientsToServerUnary, coordinator.
  destruct (all_exited (run dst sched (fanin_init sources))); simpl; intros Hin;
    apply in_app_or in Hin; destruct Hin as [Hin | Hin];
    try exact (Forall_not_cancel follower_event _ eq_refl
                 (followers_only_events dst sources sched) Hin);
    simpl in Hin; intuition discriminate.
Qed.

Lemma fanin_value_means_sent sources dst sched r :
  snd (forwardClientsToServerUnary sources dst sched) = Some r ->
  exists merged,
    In (EvDownSend merged) (fst (forwardClientsToServerUnary sources dst sched)) /\
    r = ss_SendMsg dst merged.
Proof.
  unfold forwardClientsToServerUnary, coordinator.
  destruct (all_exited (run dst sched (fanin_init sources))); simpl; [|discriminate].
  intros H. inversion H; subst.
  eexists. split; [|reflexivity]. apply in_or_app. right. simpl. auto.
Qed.

(** X6.  The handler never reports success without a reply: when it
    returns nil, the merged frame has been sent downstream and that send
    returned nil or [io.EOF]; and the call's cancel function has not
    been called. *)
Theorem handler_success_means_reply_sent :
  forall director newStream sched pick serverStream,
    let o := handler director newStream sched pick serverStream in
    o_ret o = Some None ->
    (exists merged,
        In (EvDownSend merged) (o_trace o) /\
        (ss_SendMsg serverStream merged = None \/
         ss_SendMsg serverStream merged = Some io_EOF)) /\
    ~ In EvCancel (o_trace o).
Proof.
  intros director newStream sched pick ss o. subst o. unfold handler.
  destruct (ss_method ss) as [name|]; [|discriminate].
  destruct (Main.r_err (director (ss_context ss) name)); [discriminate|].
  destruct (Main.r_ctx (director (ss_context ss) name)) as [outgoingCtx|];
    [|discriminate].
  pose proof (open_streams_only_opens newStream
                match Main.r_conns (director (ss_context ss) name) with
                | Some l => l | None => [] end 0) as Hopen.
  destruct (open_streams newStream 0 _) as [[cs|e] evs]; [|discriminate].
  simpl in Hopen.
  pose proof (broadcast_never_cancels ss cs) as Hb.
  pose proof (fanin_never_cancels cs ss sched) as Hf.
  pose proof (fanin_value_means_sent cs ss sched) as Hv.
  destruct (forwardServerToClients ss cs) as [ev1 s2c].
  destruct (forwardClientsToServerUnary cs ss sched) as [ev2 c2s].
  simpl in Hb, Hf, Hv. unfold draining, select_.
  destruct s2c as [e1|], c2s as [e2|]; try destruct pick; simpl;
    try discriminate; intros H;
    destruct (Hv e2 eq_refl) as (merged & Hin & ->);
    (split;
     [ exists merged; split;
       [ apply in_or_app; right; apply in_or_app; right; apply in_or_app; left; exact Hin
       | destruct (ss_SendMsg ss merged) as [[| |]|]; simpl in H;
         try discriminate; auto ]
     | rewrite app_nil_r; intros Hin';
       apply in_app_or in Hin'; destruct Hin' as [Hin' | Hin'];
       [ exact (Forall_not_cancel is_open evs eq_refl Hopen Hin')
       | apply in_app_or in Hin'; destruct Hin' as [Hin' | Hin']; auto ] ]).
Qed.

Lemma handler_success_means_reply_sent_witness :
  exists merged,
    In (EvDownSend merged)
       (o_trace (handler (Sample.route_to [Some 0]) (Sample.open_all [Sample.backend [Sample.A]])
                   [0; 0; 0] c2sFirst (Sample.caller [Sample.B] io_EOF))) /\
    (ss_SendMsg (Sample.caller [Sample.B] io_EOF) merged = None \/
     ss_SendMsg (Sample.caller [Sample.B] io_EOF) merged = Some io_EOF).
Proof.
  exact (proj1 (handler_success_means_reply_sent
                  (Sample.route_to [Some 0]) (Sample.open_all [Sample.backend [Sample.A]])
                  [0; 0; 0] c2sFirst (Sample.caller [Sample.B] io_EOF) eq_refl)).
Defined.

Lemma Forall_not_panic (good : event -> bool) tr :
  good EvPanic = false ->
  Forall (fun ev => good ev = true) tr -> ~ In EvPanic tr.
Proof.
  intros Hg H Hin. rewrite Forall_forall in H. specialize (H _ Hin). congruence.
Qed.

Lemma broadcast_never_panics src destinations :
  ~ In EvPanic (fst (forwardServerToClients src destinations)).
Proof.
  unfold forwardServerToClients.
  destruct (broadcast_loop_shape destinations (ss_end src) (ss_frames src) 0)
    as (evs & Hev & ->).
  intros Hin. apply in_app_or in Hin. destruct Hin as [Hin | Hin].
  - exact (Forall_not_panic broadcast_event evs eq_refl Hev Hin).
  - destruct (is_EOF (ss_end src)); simpl in Hin; [exact Hin|].
    destruct Hin as [Hin | []]; discriminate.
Qed.

Lemma fanin_never_panics sources dst sched :
  ~ In EvPanic (fst (forwardClientsToServerUnary sources dst sched)).
Proof.
  unfold forwardClientsToServerUnary, coordinator.
  destruct (all_exited (run dst sched (fanin_init sources))); simpl; intros Hin;
    apply in_app_or in Hin; destruct Hin as [Hin | Hin];
    try exact (Forall_not_panic follower_event _ eq_refl
                 (followers_only_events dst sources sched) Hin);
    simpl in Hin; intuition discriminate.
Qed.

(** X7.  Given a route with a context, when the caller half-closes the
    broadcast signals nothing and the call is decided by the fan-in
    alone, whichever channel the [select] prefers: the handler stays in
    the [select], without a panic, as long as some follower has not
    returned, and then returns the result of sending the merged frame,
    nil for [io.EOF]. *)
Theorem handler_after_half_close :
  forall director newStream sched pick serverStream name clientStreams evs,
    ss_method serverStream = Some name ->
    Main.r_err (director (ss_context serverStream) name) = None ->
    Main.r_ctx (director (ss_context serverStream) name) <> None ->
    open_streams newStream 0
      match Main.r_conns (director (ss_context serverStream) name) with
      | Some l => l | None => [] end = (inl clientStreams, evs) ->
    ss_end serverStream = io_EOF ->
    let st := run serverStream sched (fanin_init clientStreams) in
    o_ret (handler director newStream sched pick serverStream) =
      (if all_exited st
       then Some (let r := ss_SendMsg serverStream (merge_payloads (fi_buf st)) in
                  if neq_EOF r then r else None)
       else None) /\
    ~ In EvPanic (o_trace (handler director newStream sched pick serverStream)).
Proof.
  intros director newStream sched pick ss name cs evs Hm He Hx Ho Hend st. subst st.
  pose proof (open_streams_only_opens newStream
                match Main.r_conns (director (ss_context ss) name) with
                | Some l => l | None => [] end 0) as Hopen.
  rewrite Ho in Hopen. simpl in Hopen.
  pose proof (broadcast_never_panics ss cs) as Hbp.
  pose proof (fanin_never_panics cs ss sched) as Hfp.
  unfold handler. rewrite Hm, He.
  destruct (Main.r_ctx (director (ss_context ss) name)) as [outgoingCtx|];
    [|exfalso; apply Hx; reflexivity].
  rewrite Ho.
  pose proof (broadcast_loop_value cs io_EOF (ss_frames ss) 0) as Hb.
  unfold forwardServerToClients in *. rewrite Hend in *.
  destruct (broadcast_loop 0 (ss_frames ss) io_EOF cs) as [ev1 s2c].
  simpl in Hb, Hbp. subst s2c.
  unfold forwardClientsToServerUnary, coordinator in *.
  destruct (all_exited (run ss sched (fanin_init cs))); destruct pick; simpl in *;
    (split; [reflexivity|]); rewrite app_nil_r; intros Hin;
    apply in_app_or in Hin; destruct Hin as [Hin | Hin];
    try exact (Forall_not_panic is_open evs eq_refl Hopen Hin);
    apply in_app_or in Hin; destruct Hin as [Hin | Hin]; auto.
Qed.

Lemma handler_after_half_close_witness :
  o_ret (handler (Sample.route_to [Some 0])
           (Sample.open_all [Sample.backend [Sample.A; Sample.B]])
           [0; 0; 0; 0] s2cFirst (Sample.caller [Sample.B] io_EOF)) = None /\
  ~ In EvPanic
      (o_trace (handler (Sample.route_to [Some 0])
                  (Sample.open_all [Sample.backend [Sample.A; Sample.B]])
                  [0; 0; 0; 0] s2cFirst (Sample.caller [Sample.B] io_EOF))).
Proof.
  apply (handler_after_half_close (Sample.route_to [Some 0])
           (Sample.open_all [Sample.backend [Sample.A; Sample.B]])
           [0; 0; 0; 0] s2cFirst (Sample.caller [Sample.B] io_EOF)
           "/machine.Machine/Version" [Sample.backend [Sample.A; Sample.B]]
           [EvNewClientStream 0]); try reflexivity. discriminate.
Defined.

(** X8.  The handler behind the sample Director: when a dial fails the
    Director returns its two handles together with the error, and the
    handler returns that error without opening a stream on either
    handle. *)
Theorem handler_sample_director_dial_failure :
  forall (dial : Main.dialer) newStream sched pick serverStream name md e,
    ss_method serverStream = Some name ->
    Main.ctx_incoming (ss_context serverStream) = Some md ->
    match snd (dial ":8051") with Some e' => Some e' | None => snd (dial ":8052") end
      = Some e ->
    Main.r_conns (Main.Director dial (ss_context serverStream) name) =
      Some [fst (dial ":8051"); fst (dial ":8052")] /\
    handler (Main.Director dial) newStream sched pick serverStream =
      {| o_ret := Some (Some e); o_trace := [] |}.
Proof.
  intros dial newStream sched pick ss name md e Hm Hmd He.
  unfold handler. rewrite Hm.
  destruct (ss_context ss) as [inc out] eqn:Ec. simpl in Hmd. subst inc.
  cbv zeta. rewrite Director_with_metadata. cbn [Main.r_err Main.r_conns].
  split; [reflexivity|].
  destruct (snd (dial ":8051")) as [e1|].
  - inversion He; subst. reflexivity.
  - rewrite He. reflexivity.
Qed.

Lemma handler_sample_director_dial_failure_witness :
  handler (Main.Director Sample.dial_second_fails) (Sample.open_all []) [] c2sFirst
          (Sample.caller [Sample.A] io_EOF) =
    {| o_ret := Some (Some (OtherErr "refused")); o_trace := [] |}.
Proof.
  apply (proj2 (handler_sample_director_dial_failure Sample.dial_second_fails
                  (Sample.open_all []) [] c2sFirst (Sample.caller [Sample.A] io_EOF)
                  "/machine.Machine/Version" [("k", ["v"])] (OtherErr "refused")
                  eq_refl eq_refl eq_refl)).
Defined.

(** * The streaming fan-in *)

Module StreamingFacts.

Import Streaming.

Lemma streaming_run_preserves dst (P : state -> Prop) :
  (forall i st st', P st -> step dst i st = Some st' -> P st') ->
  forall sched st, P st -> P (run dst sched st).
Proof.
  intros Hstep sched. induction sched as [|i sched IH]; intros st H; simpl; [exact H|].
  apply IH. destruct (step dst i st) as [st'|] eqn:E; [eapply Hstep; eauto | exact H].
Qed.

Lemma streaming_step_inv dst i st st' :
  step dst i st = Some st' ->
  exists f f' evs,
    nth_error (s_followers st) i = Some f /\
    follower_step i dst f = Some (f', evs) /\
    st' = {| s_followers := upd i f' (s_followers st); s_trace := s_trace st ++ evs |}.
Proof.
  unfold step. intros H.
  destruct (nth_error (s_followers st) i) as [f|]; [|discriminate].
  destruct (follower_step i dst f) as [[f' evs]|] eqn:E; [|discriminate].
  inversion H; subst. exists f, f', evs. auto.
Qed.

Lemma streaming_sent_down_app i tr1 tr2 :
  sent_down i (tr1 ++ tr2) = sent_down i tr1 ++ sent_down i tr2.
Proof.
  induction tr1 as [|ev tr1 IH]; simpl; [reflexivity|].
  destruct ev; try exact IH.
  destruct r; [exact IH|]. destruct (Nat.eqb i i0); simpl; rewrite IH; reflexivity.
Qed.

Lemma streaming_follower_step_ok i dst f f' evs :
  follower_ok dst f ->
  follower_step i dst f = Some (f', evs) ->
  follower_ok dst f' /\ f_src f' = f_src f /\ fuel_of f' < fuel_of f /\
  (forall k, k <> i -> sent_down k evs = []) /\
  firstn (f_j f') (cs_frames (f_src f)) =
    firstn (f_j f) (cs_frames (f_src f)) ++ sent_down i evs.
Proof.
  destruct f as [src rest j pc].
  unfold follower_ok, follower_step, fuel_of; simpl.
  intros [Hj Hpc] H. destruct pc as [|p|]; [| |discriminate].
  - destruct rest as [|p r].
    + assert (Hlen : j = length (cs_frames src)).
      { symmetry in Hpc. apply skipn_all_iff in Hpc. lia. }
      destruct (is_EOF (cs_end src)); inversion H; subst; simpl;
        rewrite app_nil_r; repeat split; auto; lia.
    + destruct (Nat.eqb j 0).
      * destruct (cs_header src) as [md [e|]] eqn:Eh; inversion H; subst; simpl.
        -- rewrite Eh, app_nil_r. repeat split; auto; try lia. discriminate.
        -- destruct (ss_SetHeader dst md); simpl; rewrite app_nil_r;
             repeat split; auto; lia.
      * inversion H; subst; simpl. rewrite app_nil_r. repeat split; auto; lia.
  - destruct (skipn_cons_next _ _ _ _ Hpc) as (Hr & Hlt & Hf).
    destruct (ss_SendMsg dst p) as [e|] eqn:Es; inversion H; subst; simpl.
    + rewrite app_nil_r. repeat split; auto; try lia.
      intros _ Hall. rewrite Hall in Es. discriminate.
    + rewrite Nat.eqb_refl. repeat split; auto; try lia.
      intros k Hk. destruct (Nat.eqb_spec k i); [contradiction | reflexivity].
Qed.

Lemma streaming_state_ok_init sources dst : state_ok sources dst (init sources).
Proof.
  unfold state_ok, init; simpl. repeat split.
  - rewrite map_map. simpl. apply map_id.
  - apply Forall_map, Forall_forall. intros src _.
    unfold follower_ok; simpl. split; [lia | reflexivity].
  - intros i f H. apply nth_error_In, in_map_iff in H.
    destruct H as (src & <- & _). reflexivity.
Qed.

Lemma streaming_state_ok_step sources dst i st st' :
  state_ok sources dst st -> step dst i st = Some st' -> state_ok sources dst st'.
Proof.
  intros (Hsrc & Hall & Hsent) Hs. apply streaming_step_inv in Hs.
  destruct Hs as (f & f' & evs & Hnth & Hf & ->).
  assert (Hfok : follower_ok dst f).
  { rewrite Forall_forall in Hall. apply Hall. eapply nth_error_In; eauto. }
  assert (Hi : i < length (s_followers st)) by (apply nth_error_Some; congruence).
  destruct (streaming_follower_step_ok _ _ _ _ _ Hfok Hf) as (Hok' & Hsame & _ & Hother & Hmine).
  unfold state_ok; simpl. repeat split.
  - rewrite map_upd, Hsame. rewrite upd_same; [exact Hsrc|].
    apply map_nth_error. exact Hnth.
  - apply Forall_upd; assumption.
  - intros k g Hk. rewrite streaming_sent_down_app. destruct (Nat.eq_dec i k) as [<-|Hne].
    + rewrite nth_error_upd_eq in Hk by exact Hi. inversion Hk; subst g.
      rewrite Hsame, Hmine, (Hsent i f Hnth). reflexivity.
    + rewrite nth_error_upd_neq in Hk by exact Hne.
      rewrite (Hother k) by auto. rewrite app_nil_r. apply Hsent. exact Hk.
Qed.

Lemma streaming_state_ok_run sources dst sched : state_ok sources dst (run dst sched (init sources)).
Proof.
  apply streaming_run_preserves; [|apply streaming_state_ok_init].
  intros i st st' H Hs. eapply streaming_state_ok_step; eauto.
Qed.

End StreamingFacts.

(** X10.  In every run of the streaming fan-in the frames of backend [i]
    that have been sent downstream are a prefix of that backend's
    frames, in its order; and they are all of its frames once every
    follower has returned, provided the backend's header could be read
    and the downstream stream accepts every send. *)
Theorem streaming_forwards_in_order :
  forall sources dst sched i src,
    nth_error sources i = Some src ->
    let st := Streaming.run dst sched (Streaming.init sources) in
    exists n,
      Streaming.sent_down i (fst (Streaming.forwardClientsToServer sources dst sched)) =
        firstn n (cs_frames src) /\
      (Streaming.all_exited st = true ->
       snd (cs_header src) = None ->
       (forall p, ss_SendMsg dst p = None) ->
       Streaming.sent_down i (fst (Streaming.forwardClientsToServer sources dst sched)) =
         cs_frames src).
Proof.
  intros sources dst sched i src Hsrc st. subst st.
  destruct (StreamingFacts.streaming_state_ok_run sources dst sched) as (Hmap & Hall & Hsent).
  assert (Hf : exists f, nth_error
                           (Streaming.s_followers
                              (Streaming.run dst sched (Streaming.init sources))) i = Some f /\
                         f_src f = src).
  { rewrite <- Hmap in Hsrc. rewrite nth_error_map in Hsrc.
    destruct (nth_error _ i) as [f|]; [|discriminate].
    inversion Hsrc. exists f. auto. }
  destruct Hf as (f & Hnth & <-).
  assert (Htr : Streaming.sent_down i
                  (fst (Streaming.forwardClientsToServer sources dst sched)) =
                firstn (f_j f) (cs_frames (f_src f))).
  { unfold Streaming.forwardClientsToServer, Streaming.coordinator.
    destruct (Streaming.all_exited _); simpl fst;
      rewrite StreamingFacts.streaming_sent_down_app, (Hsent i f Hnth); simpl;
      apply app_nil_r. }
  exists (f_j f). split; [exact Htr|].
  intros Hex Hh Hs. rewrite Htr.
  unfold Streaming.all_exited in Hex. rewrite forallb_forall in Hex.
  specialize (Hex f (nth_error_In _ _ Hnth)).
  rewrite Forall_forall in Hall. specialize (Hall f (nth_error_In _ _ Hnth)).
  unfold Streaming.follower_ok, exited in *. destruct Hall as [_ Hpc].
  destruct (f_pc f); try discriminate.
  rewrite (Hpc Hh Hs). apply firstn_all.
Qed.

Lemma streaming_forwards_in_order_witness :
  exists n,
    Streaming.sent_down 1
      (fst (Streaming.forwardClientsToServer
              [Sample.backend [Sample.A]; Sample.backend [Sample.B; Sample.A]]
              (Sample.caller [] io_EOF) [1; 0; 1; 1])) =
    firstn n [Sample.B; Sample.A].
Proof.
  destruct (streaming_forwards_in_order
              [Sample.backend [Sample.A]; Sample.backend [Sample.B; Sample.A]]
              (Sample.caller [] io_EOF) [1; 0; 1; 1] 1
              (Sample.backend [Sample.B; Sample.A]) eq_refl) as (n & H & _).
  exists n. exact H.
Defined.

(** * The stream wrapper: no caller waits for ever *)

Module WrapperProgress.

Import Wrapper.

Lemma wrun_app s1 s2 st : wrun (s1 ++ s2) st = wrun s2 (wrun s1 st).
Proof.
  revert st; induction s1 as [|i s1 IH]; intros st; simpl; [reflexivity | apply IH].
Qed.

Lemma wstep_fuel t st st' : wstep t st = Some st' -> wfuel st' < wfuel st.
Proof.
  unfold wstep. destruct (nth_error (w_threads st) t) as [[m pc]|] eqn:Hnth; [|discriminate].
  simpl. intros H.
  assert (Hsum : forall pc',
             list_sum (map moves_left (upd t {| t_method := m; t_pc := pc' |} (w_threads st)))
             + moves_left {| t_method := m; t_pc := pc |} =
             wfuel st + moves_left {| t_method := m; t_pc := pc' |}).
  { intros pc'. apply list_sum_upd. exact Hnth. }
  destruct pc; try discriminate;
    [ specialize (Hsum Holding) | specialize (Hsum InCall)
    | specialize (Hsum Returned) | specialize (Hsum Done) ];
    destruct (guard m) as [mu|]; try (destruct (locked st mu); [discriminate|]);
    inversion H; subst; unfold wfuel, set_lock, keep_locks in *;
    cbn [moves_left t_pc w_threads] in *; lia.
Qed.

Lemma idle_occupancy mu l : existsb busy l = false -> occupancy mu l = 0.
Proof.
  induction l as [|th r IH]; simpl; [reflexivity|].
  intros H. apply orb_false_iff in H. destruct H as [Hb Hr].
  rewrite (IH Hr). unfold in_section, busy in *.
  destruct (guard (t_method th)); [|reflexivity].
  destruct (t_pc th); try discriminate; rewrite andb_false_r; reflexivity.
Qed.

Lemma done_occupancy mu l : forallb is_done l = true -> occupancy mu l = 0.
Proof.
  induction l as [|th r IH]; simpl; [reflexivity|].
  intros H. apply andb_true_iff in H. destruct H as [Hd Hr].
  rewrite (IH Hr). unfold in_section, is_done in *.
  destruct (guard (t_method th)); [|reflexivity].
  destruct (t_pc th); try discriminate. rewrite andb_false_r. reflexivity.
Qed.

Lemma not_all_done l :
  forallb is_done l = false ->
  exists t th, nth_error l t = Some th /\ is_done th = false.
Proof.
  induction l as [|th r IH]; simpl; [discriminate|].
  destruct (is_done th) eqn:E; simpl.
  - intros H. destruct (IH H) as (t & th' & Ht & Hd). exists (S t), th'. auto.
  - intros _. exists 0, th. auto.
Qed.

Lemma busy_can_step t st th :
  nth_error (w_threads st) t = Some th -> busy th = true ->
  exists st', wstep t st = Some st'.
Proof.
  intros Hnth Hb. unfold wstep. rewrite Hnth. unfold busy in Hb.
  destruct (t_pc th); try discriminate; try (eexists; reflexivity).
  destruct (guard (t_method th)); eexists; reflexivity.
Qed.

(** In a balanced state some goroutine can move unless all are done. *)
Lemma progress st :
  balanced st -> all_done st = false -> exists t st', wstep t st = Some st'.
Proof.
  intros Hbal Hnd. destruct (existsb busy (w_threads st)) eqn:Eb.
  - apply existsb_exists in Eb. destruct Eb as (th & Hin & Hb).
    apply In_nth_error in Hin. destruct Hin as [t Ht].
    exists t. eapply busy_can_step; eauto.
  - destruct (not_all_done _ Hnd) as (t & th & Ht & Hd).
    exists t. unfold wstep. rewrite Ht.
    assert (Hidle : busy th = false).
    { destruct (busy th) eqn:E; [|reflexivity].
      assert (existsb busy (w_threads st) = true)
        by (apply existsb_exists; exists th; split; [eapply nth_error_In; eauto | exact E]).
      congruence. }
    unfold busy in Hidle. unfold is_done in Hd.
    destruct (t_pc th); try discriminate.
    destruct (guard (t_method th)) as [mu|]; [|eexists; reflexivity].
    pose proof (Hbal mu) as Hmu. rewrite (idle_occupancy mu _ Eb) in Hmu.
    destruct (locked st mu); [discriminate | eexists; reflexivity].
Qed.

Lemma wrapper_completes :
  forall n st, wfuel st <= n -> balanced st ->
               exists sched, all_done (wrun sched st) = true /\ balanced (wrun sched st).
Proof.
  induction n as [|n IH]; intros st Hn Hbal;
    destruct (all_done st) eqn:E; try (exists []; split; [exact E | exact Hbal]);
    destruct (progress st Hbal E) as (t & st' & Hs);
    pose proof (wstep_fuel t st st' Hs) as Hlt.
  - lia.
  - destruct (IH st') as (sched & Hd & Hb);
      [lia | eapply WrapperFacts.balanced_step; eauto |].
    exists (t :: sched). simpl. rewrite Hs. auto.
Qed.

End WrapperProgress.

(** X12.  The wrapper cannot deadlock and releases what it locks.
    However its callers are interleaved, as long as some call has not
    returned some goroutine can move, every run can be continued until
    all calls have returned, and then both mutexes are unlocked.  A call
    of [Context] takes no lock and can always move. *)
Theorem wrapper_no_deadlock :
  forall calls sched,
    let st := Wrapper.wrun sched (Wrapper.winit calls) in
    (Wrapper.all_done st = false -> exists t st', Wrapper.wstep t st = Some st') /\
    (exists sched',
        Wrapper.all_done (Wrapper.wrun (sched ++ sched') (Wrapper.winit calls)) = true) /\
    (Wrapper.all_done st = true ->
     Wrapper.w_sendMu st = false /\ Wrapper.w_recvMu st = false) /\
    (forall t pc,
        nth_error (Wrapper.w_threads st) t =
          Some {| Wrapper.t_method := Wrapper.Context; Wrapper.t_pc := pc |} ->
        pc <> Wrapper.Done ->
        exists st', Wrapper.wstep t st = Some st' /\
                    Wrapper.w_sendMu st' = Wrapper.w_sendMu st /\
                    Wrapper.w_recvMu st' = Wrapper.w_recvMu st).
Proof.
  intros calls sched st. subst st.
  pose proof (WrapperFacts.balanced_run calls sched) as Hbal.
  split; [|split; [|split]].
  - apply WrapperProgress.progress. exact Hbal.
  - destruct (WrapperProgress.wrapper_completes
                (Wrapper.wfuel (Wrapper.wrun sched (Wrapper.winit calls)))
                _ (le_n _) Hbal) as (sched' & Hd & _).
    exists sched'. rewrite WrapperProgress.wrun_app. exact Hd.
  - intros Hd. unfold Wrapper.all_done in Hd.
    pose proof (Hbal Wrapper.sendMu) as Hs. pose proof (Hbal Wrapper.recvMu) as Hr.
    rewrite (WrapperProgress.done_occupancy _ _ Hd) in Hs.
    rewrite (WrapperProgress.done_occupancy _ _ Hd) in Hr. simpl in Hs, Hr.
    split.
    + destruct (Wrapper.w_sendMu _); [discriminate | reflexivity].
    + destruct (Wrapper.w_recvMu _); [discriminate | reflexivity].
  - intros t pc Hnth Hpc. unfold Wrapper.wstep. rewrite Hnth. simpl.
    destruct pc; try (exfalso; apply Hpc; reflexivity);
      eexists; (split; [reflexivity | split; reflexivity]).
Qed.

Lemma wrapper_no_deadlock_witness :
  exists t st',
    Wrapper.wstep t (Wrapper.wrun [0; 0; 1]
                       (Wrapper.winit [Wrapper.SendMsg; Wrapper.SetHeader])) = Some st'.
Proof.
  exact (proj1 (wrapper_no_deadlock [Wrapper.SendMsg; Wrapper.SetHeader] [0; 0; 1]) eq_refl).
Defined.

(** * The stream wrapper: callers take turns *)


